(** * tcp4to6: accept loop, dial-and-bridge handler and stream bridging

    A shallow embedding of the Go package [tcpto6] (file [tcpto6.go]: [Run],
    [handleListener], [handleConn], [bridgeStreams]) and of the library-level
    bridging code of package [tcp4to6] ([BridgeStreams], [copyStream],
    [closeAfterDone]).

    Go values are modelled as follows.
    - An [error] interface value is an [option error]; [None] is Go's [nil].
    - Every blocking call of the environment (Accept, Dial, Read, Write,
      Close, LookupEnv, activation.Listeners) is answered by data carried by
      the socket or by the [Env] record: a listener carries the sequence of
      results its Accept calls return, a stream carries the results of its
      Read calls, and so on.
    - Every function returns, besides its Go result, the list of [event]s
      (calls to the environment and to the logger) it performs, in program
      order.
    - A goroutine started with [group.Go] is a [Task]: its event list and the
      error it returns to the group. *)

From Stdlib Require Import Lia.
From stdpp Require Import base option list strings gmap.

Local Open Scope string_scope.
Local Open Scope list_scope.

(** ** Go errors *)

Module GoError.

(** Package-level error values that are compared by identity. *)
Inductive sentinel : Type :=
| io_EOF
| io_ErrShortWrite
| os_ErrClosed
| net_ErrClosed
| EnvMissing
| UnexpectedSocketAmount.

#[global] Instance sentinel_eq_dec : EqDecision sentinel.
Proof. solve_decision. Defined.

(** The text each of them was created with. *)
Definition sentinel_text (s : sentinel) : string :=
  match s with
  | io_EOF => "EOF"
  | io_ErrShortWrite => "short write"
  | os_ErrClosed => "file already closed"
  | net_ErrClosed => "use of closed network connection"
  | EnvMissing => "environment variable is not set"
  | UnexpectedSocketAmount => "systemd passed unexpected number of sockets"
  end.

(** A non-nil error value.  [Opaque] has no [Unwrap] method (a system call
    error, or the result of [fmt.Errorf] without the [%w] verb); [Wrapped]
    has one ([fmt.Errorf] with [%w], [*net.OpError]). *)
Inductive error : Type :=
| Sentinel (s : sentinel)
| Opaque (msg : string)
| Wrapped (msg : string) (cause : error).

#[global] Instance error_eq_dec : EqDecision error.
Proof. solve_decision. Defined.

(** [err.Error()] *)
Definition Error (err : error) : string :=
  match err with
  | Sentinel s => sentinel_text s
  | Opaque msg => msg
  | Wrapped msg _ => msg
  end.

(** [errors.Is(err, target)] for a sentinel [target]: walk the [Unwrap]
    chain and compare each element with [==]. *)
Fixpoint errors_Is (err : error) (target : sentinel) : bool :=
  match err with
  | Sentinel s => bool_decide (s = target)
  | Opaque _ => false
  | Wrapped _ cause => errors_Is cause target
  end.

(** [fmt.Errorf(pre + "%w" + post, err)] *)
Definition fmt_Errorf_w (pre : string) (err : error) (post : string) : error :=
  Wrapped (pre +:+ Error err +:+ post) err.

(** The [%v] rendering of a slice: elements separated by one space, in
    square brackets. *)
Fixpoint join_sp (l : list string) : string :=
  match l with
  | [] => ""
  | [s] => s
  | s :: rest => s +:+ " " +:+ join_sp rest
  end.

Definition fmt_v_slice (l : list string) : string := "[" +:+ join_sp l +:+ "]".

(** [fmt.Errorf(pre + "%v", errs)] for [errs []error]: no [%w], so nothing
    is wrapped; each element is rendered by its [Error] method. *)
Definition fmt_Errorf_v (pre : string) (errs : list error) : error :=
  Opaque (pre +:+ fmt_v_slice (Error <$> errs)).

End GoError.
Export GoError.

Definition errEnvMissing : error := Sentinel EnvMissing.
Definition errUnexpectedSocketAmount : error := Sentinel UnexpectedSocketAmount.
Definition ToAddrEnvName : string := "TCPV4TO6_DESTINATION_ADDR".

(** ** Sockets and the environment *)

(** An [io.ReadWriteCloser] (here always a [net.Conn]).  [reads] are the
    results of the successive [Read] calls that return no error, [last_read]
    is the result of the first [Read] that returns one; [Write] answers a
    [Write] call with the number of bytes taken and an error; [Close] is the
    result of the [Close] call. *)
Record Stream : Type := {
  sid : nat;
  reads : list (list Byte.byte);
  last_read : list Byte.byte * error;
  Write : list Byte.byte → Z * option error;
  Close : option error;
}.

(** What the program does to its environment, in program order. *)
Inductive event : Type :=
| EvLookupEnv (name : string)
| EvListeners
| EvAccept (listener : nat)
| EvGoHandler (from : nat) (toAddr : string) (noCancelOnSuccess : bool)
| EvDial (network address : string)
| EvCopy (dst src : nat)
| EvDone
| EvClose (socket : nat)
| EvLogError (err : error) (msg : string).

#[global] Instance event_eq_dec : EqDecision event.
Proof. solve_decision. Defined.

(** A goroutine handed to [group.Go]: what it does and what it returns. *)
Record Task : Type := { events : list event; ret : option error }.

(** ** [io.Copy] (Go standard library, generic path of [io.copyBuffer]) *)

(** One round of the loop after a [Read] returned [buf]: write it if it is
    not empty.  The result is the error that ends the copy, if any. *)
Definition copy_write (dst : Stream) (buf : list Byte.byte) : option error :=
  match buf with
  | [] => None
  | _ =>
    let '(nw, ew) := Write dst buf in
    let '(nw, ew) :=
      if bool_decide (nw < 0 ∨ Z.of_nat (length buf) < nw)%Z
      then (0%Z, Some (default (Opaque "invalid write result") ew))
      else (nw, ew) in
    match ew with
    | Some e => Some e
    | None => if bool_decide (Z.of_nat (length buf) ≠ nw) then Some (Sentinel io_ErrShortWrite) else None
    end
  end.

(** The read error ends the copy; [io.EOF] itself (compared with [!=], not
    [errors.Is]) is the expected end and is not reported. *)
Definition copy_read_err (er : error) : option error :=
  if bool_decide (er = Sentinel io_EOF) then None else Some er.

Fixpoint copy_loop (dst : Stream) (rs : list (list Byte.byte))
    (last : list Byte.byte * error) : option error :=
  match rs with
  | buf :: rest =>
    match copy_write dst buf with
    | Some e => Some e
    | None => copy_loop dst rest last
    end
  | [] =>
    match copy_write dst last.1 with
    | Some e => Some e
    | None => copy_read_err last.2
    end
  end.

Definition io_Copy (dst src : Stream) : option error :=
  copy_loop dst (reads src) (last_read src).

(** ** The task group (package [rungroup]) *)

Module rungroup.

(** Modelled from the spec: package [rungroup] is an external dependency
    whose source is not part of the repository.  The spec describes it as a
    task group that joins all of its tasks and collects the set of the errors
    they returned.  [rets] are the values returned by the goroutines, numbered
    by their [Go] calls; [order] lists these numbers in the order in which
    the goroutines finish, and the collected errors come in that order. *)
Definition collect (order : list nat) (rets : list (option error)) : list error :=
  omap (λ i, mjoin (rets !! i)) order.

(** Each of the [n] goroutines of the group finishes exactly once. *)
Definition complete (order : list nat) (n : nat) : Prop :=
  order ≡ₚ seq 0 n.

(** [Wait() []error] of the version imported by package [tcp4to6]. *)
Definition Wait_errs (order : list nat) (rets : list (option error)) : list error :=
  collect order rets.

(** Modelled from the spec: [Wait() error] of the version imported by
    package [tcpto6] returns one error for the collected set: nil for the
    empty set, the error itself for a singleton, one descriptive error
    otherwise. *)
Definition Wait (order : list nat) (rets : list (option error)) : option error :=
  match collect order rets with
  | [] => None
  | [err] => Some err
  | errs => Some (fmt_Errorf_v "multiple errors: " errs)
  end.

End rungroup.

(** ** Package [tcp4to6]: library-level bridging *)

(** The [switch] of [copyStream] on the error returned by [io.Copy]. *)
Definition copyStream_switch (err : option error) : option error :=
  match err with
  | None => None
  | Some e =>
    if errors_Is e os_ErrClosed || errors_Is e net_ErrClosed
    then None
    else Some (fmt_Errorf_w "io.Copy failed: " e "")
  end.

Definition copyStream (dst src : Stream) : option error :=
  let err := io_Copy dst src in
  copyStream_switch err.

(** The [for _, closer := range closers] loop: [errs] grows by [append]. *)
Fixpoint close_loop (closers : list Stream) (errs : list error) : list error :=
  match closers with
  | [] => errs
  | closer :: rest =>
    match Close closer with
    | Some err => close_loop rest (errs ++ [err])
    | None => close_loop rest errs
    end
  end.

(** The [switch len(errs)] that ends [closeAfterDone]. *)
Definition closeAfterDone_switch (errs : list error) : option error :=
  match errs with
  | [] => None
  | [err] => Some err
  | _ => Some (fmt_Errorf_v "multiple errors while closing closers: " errs)
  end.

(** [closeAfterDone(ctx, closers...)]: wait for [ctx.Done()], close every
    closer, report. *)
Definition closeAfterDone (closers : list Stream) : Task :=
  let errs := close_loop closers [] in
  {| events := EvDone :: (EvClose ∘ sid <$> closers);
     ret := closeAfterDone_switch errs |}.

(** The three goroutines of [BridgeStreams], in the order of the [Go]
    calls. *)
Definition BridgeStreams_tasks (a b : Stream) : list Task :=
  [ {| events := [EvCopy (sid a) (sid b)]; ret := copyStream a b |};
    {| events := [EvCopy (sid b) (sid a)]; ret := copyStream b a |};
    closeAfterDone [a; b] ].

(** The [switch len(errs)] that ends [BridgeStreams]. *)
Definition BridgeStreams_switch (errs : list error) : option error :=
  match errs with
  | [] => None
  | [err] => Some err
  | _ => Some (fmt_Errorf_v "multiple errors while bridging streams: " errs)
  end.

Definition BridgeStreams (order : list nat) (a b : Stream) : option error :=
  let errs := rungroup.Wait_errs order (ret <$> BridgeStreams_tasks a b) in
  BridgeStreams_switch errs.

(** ** Package [tcpto6]: the service *)

(** How a call ends: it returns, it never returns (a goroutine blocked in
    [Accept] for ever), or it panics. *)
Inductive Outcome (A : Type) : Type :=
| Returns (a : A)
| Blocks
| Panics (msg : string).
Arguments Returns {A} a.
Arguments Blocks {A}.
Arguments Panics {A} msg.

(** A copier goroutine of [bridgeStreams]: copy, log what is neither nil
    nor [net.ErrClosed], return nil. *)
Definition bridge_copier (dst src : Stream) (msg : string) : Task :=
  {| events :=
       EvCopy (sid dst) (sid src) ::
       match io_Copy dst src with
       | Some err => if negb (errors_Is err net_ErrClosed) then [EvLogError err msg] else []
       | None => []
       end;
     ret := None |}.

(** A close-watcher goroutine of [bridgeStreams]: wait for [ctx.Done()],
    close, log what is neither nil nor [net.ErrClosed], return nil. *)
Definition bridge_closer (s : Stream) (msg : string) : Task :=
  {| events :=
       EvDone :: EvClose (sid s) ::
       match Close s with
       | Some err => if negb (errors_Is err net_ErrClosed) then [EvLogError err msg] else []
       | None => []
       end;
     ret := None |}.

Definition bridgeStreams_tasks (to from : Stream) : list Task :=
  [ bridge_copier to from "copy from->to failed";
    bridge_copier from to "copy from<-to failed";
    bridge_closer to "could not close from stream";
    bridge_closer from "could not close to stream" ].

(** [bridgeStreams(ctx, log, to, from)]: the goroutines it ran, and how it
    ends. *)
Definition bridgeStreams (order : list nat) (to from : Stream)
    : list Task * Outcome unit :=
  let tasks := bridgeStreams_tasks to from in
  match rungroup.Wait order (ret <$> tasks) with
  | Some _ => (tasks, Panics "did not expect errors")
  | None => (tasks, Returns ())
  end.

(** A [net.Listener] that is not nil: [accepts] are the results of its
    successive [Accept] calls (after the last one the next call never
    returns), [lclose] is the result of its [Close], [lrepr] its [%v]
    rendering.  A [net.Listener] interface value is an [option Listener];
    [None] is the nil interface value. *)
Record Listener : Type := {
  lid : nat;
  accepts : list (Stream + error);
  lclose : option error;
  lrepr : string;
}.

(** The collaborators of the process: its environment variables, the result
    of [activation.Listeners()] (a slice of [net.Listener] values, each of
    which may be nil, and an error), the dialer, and the finishing order of
    the goroutines of the service group and of each connection's bridge. *)
Record Env : Type := {
  environ : gmap string string;
  systemd : list (option Listener) * option error;
  dialer : string → string → Stream + error;
  service_order : list nat;
  bridge_order : nat → list nat;
}.

(** What [handleConn] did: its own events, the goroutines of the bridge it
    ran (none if the dial failed), and how it ended. *)
Record ConnRun : Type := {
  conn_events : list event;
  conn_bridge : list Task;
  conn_end : Outcome unit;
}.

Definition handleConn (env : Env) (from : Stream) (dstAddr : string) : ConnRun :=
  match dialer env "tcp6" dstAddr with
  | inr err =>
    {| conn_events :=
         EvDial "tcp6" dstAddr ::
         EvLogError err "couldn't connect to dstAddr. closing accepted connection" ::
         EvClose (sid from) ::
         match Close from with
         | Some err => [EvLogError err "couldn't close accepted connection"]
         | None => []
         end;
       conn_bridge := [];
       conn_end := Returns () |}
  | inl to =>
    let '(tasks, out) := bridgeStreams (bridge_order env (sid from)) to from in
    {| conn_events := [EvDial "tcp6" dstAddr];
       conn_bridge := tasks;
       conn_end := out |}
  end.

(** The goroutine [handleListener] dispatches for an accepted connection:
    [handleConn(ctx, log, from, toAddr); return nil]. *)
Definition handler_task (env : Env) (from : Stream) (toAddr : string)
    : ConnRun * Outcome (option error) :=
  let run := handleConn env from toAddr in
  (run, match conn_end run with
        | Returns _ => Returns None
        | Blocks => Blocks
        | Panics msg => Panics msg
        end).

(** What [handleListener] did: its events, the connections it dispatched a
    handler for (in order), and how it ended. *)
Record LoopRun : Type := {
  loop_events : list event;
  loop_dispatched : list Stream;
  loop_end : Outcome (option error);
}.

(** The [for] loop of [handleListener], over the results [Accept] has yet
    to return. *)
Fixpoint accept_loop (toAddr : string) (l : nat) (script : list (Stream + error))
    : LoopRun :=
  match script with
  | [] =>
    {| loop_events := [EvAccept l]; loop_dispatched := []; loop_end := Blocks |}
  | inr err :: _ =>
    {| loop_events := [EvAccept l];
       loop_dispatched := [];
       loop_end :=
         if errors_Is err net_ErrClosed
         then Returns None
         else Returns (Some (fmt_Errorf_w "failed to accept new connection: " err "")) |}
  | inl from :: rest =>
    let run := accept_loop toAddr l rest in
    {| loop_events := EvAccept l :: EvGoHandler (sid from) toAddr true :: loop_events run;
       loop_dispatched := from :: loop_dispatched run;
       loop_end := loop_end run |}
  end.

(** [handleListener(group, log, toAddr, l)].  On a nil [l] the first
    [l.Accept()] is a method call on a nil interface value, which panics. *)
Definition handleListener (toAddr : string) (l : option Listener) : LoopRun :=
  match l with
  | Some l => accept_loop toAddr (lid l) (accepts l)
  | None =>
    {| loop_events := []; loop_dispatched := [];
       loop_end := Panics "invalid memory address or nil pointer dereference" |}
  end.

(** All goroutines of a group have to return for [Wait] to return; a panic
    in one of them ends the process. *)
Fixpoint joined (outs : list (Outcome (option error))) : Outcome (list (option error)) :=
  match outs with
  | [] => Returns []
  | Returns r :: rest =>
    match joined rest with
    | Returns rs => Returns (r :: rs)
    | Blocks => Blocks
    | Panics msg => Panics msg
    end
  | Blocks :: rest =>
    match joined rest with
    | Panics msg => Panics msg
    | _ => Blocks
    end
  | Panics msg :: _ => Panics msg
  end.

(** The goroutine of [Run] that closes the listener once the group is asked
    to stop: what it does from the moment [ctx.Done()] is closed. *)
Definition listener_closer (listener : Listener) : Task :=
  {| events := [EvDone; EvClose (lid listener)];
     ret := match lclose listener with
            | Some err => Some (fmt_Errorf_w "could not close listener: " err "")
            | None => None
            end |}.

(** Modelled from the spec: when the group of [Run] is asked to stop is
    decided by package [rungroup] and by the caller's context, neither of
    which is part of the repository.  The spec has the listener closed on
    cancellation or on an unrecoverable accept error, and a pending [Accept]
    unblocked by that close.  So the closer has run when the accept loop has
    returned (with an error, which stops the group, or with nil, because it
    saw the listener closed), and it is still waiting in [<-ctx.Done()]
    while the accept loop is waiting in [Accept]. *)
Definition closer_run (loop_ended : Outcome (option error))
    (listener : option Listener) : option Task :=
  match loop_ended, listener with
  | Returns _, Some l => Some (listener_closer l)
  | _, _ => None
  end.

(** The [%v] rendering of a [net.Listener] value. *)
Definition listener_repr (l : option Listener) : string :=
  match l with
  | Some l => lrepr l
  | None => "<nil>"
  end.

(** What [Run] did: the events of its own goroutine, the accept loop it
    started (none if start-up failed), the listener closer if it got to run,
    the handlers the accept loop dispatched, and how it ended. *)
Record ServiceRun : Type := {
  run_events : list event;
  run_loop : option LoopRun;
  run_closer : option Task;
  run_handlers : list ConnRun;
  run_end : Outcome (option error);
}.

Definition startup_failure (evs : list event) (err : error) : ServiceRun :=
  {| run_events := evs; run_loop := None; run_closer := None;
     run_handlers := []; run_end := Returns (Some err) |}.

Definition Run (env : Env) : ServiceRun :=
  match environ env !! ToAddrEnvName with
  | None =>
    startup_failure [EvLookupEnv ToAddrEnvName]
      (fmt_Errorf_w "" errEnvMissing (": " +:+ ToAddrEnvName))
  | Some toAddr =>
    let '(listeners, err) := systemd env in
    let evs := [EvLookupEnv ToAddrEnvName; EvListeners] in
    match err with
    | Some err =>
      startup_failure evs (fmt_Errorf_w "could not get systemd sockets: " err "")
    | None =>
      if bool_decide (length listeners ≠ 1) then
        startup_failure evs
          (fmt_Errorf_w "" errUnexpectedSocketAmount
             (": " +:+ fmt_v_slice (listener_repr <$> listeners)))
      else
        match listeners !! 0 with
        | None =>
          {| run_events := evs; run_loop := None; run_closer := None;
             run_handlers := []; run_end := Panics "index out of range" |}
        | Some listener =>
          let loop := handleListener toAddr listener in
          let closer := closer_run (loop_end loop) listener in
          let handlers := (λ from, handler_task env from toAddr) <$> loop_dispatched loop in
          {| run_events := evs;
             run_loop := Some loop;
             run_closer := closer;
             run_handlers := fst <$> handlers;
             run_end :=
               match joined (loop_end loop
                             :: from_option (λ t, Returns (ret t)) Blocks closer
                             :: (snd <$> handlers)) with
               | Returns rets =>
                 match rungroup.Wait (service_order env) rets with
                 | Some err => Returns (Some (fmt_Errorf_w "listening group failed: " err ""))
                 | None => Returns None
                 end
               | Blocks => Blocks
               | Panics msg => Panics msg
               end |}
        end
    end
  end.

(** * Vocabulary of the properties, and sample inputs *)

(** [sub] occurs in [s]. *)
Definition contains (s sub : string) : Prop :=
  ∃ pre post, s = pre +:+ sub +:+ post.

(** The conditions the spec calls a benign closure of a copy direction:
    [io.Copy] returned nil (the source ended with [io.EOF]), or an error
    that is [os.ErrClosed] or [net.ErrClosed]. *)
Definition benign (err : option error) : bool :=
  match err with
  | None => true
  | Some e => errors_Is e os_ErrClosed || errors_Is e net_ErrClosed
  end.

(** The destination takes every [Write] in full and without error. *)
Definition writes_all (dst : Stream) : Prop :=
  ∀ buf, Write dst buf = (Z.of_nat (length buf), None).

(** A stream that takes every [Write] in full and whose first [Read]
    returns no data and the error [err]. *)
Definition failing_source (n : nat) (err : error) : Stream :=
  {| sid := n; reads := []; last_read := ([], err);
     Write := λ buf, (Z.of_nat (length buf), None); Close := None |}.

(** The errors a goroutine reported to the logger. *)
Definition logged (evs : list event) : list error :=
  omap (λ ev, match ev with EvLogError err _ => Some err | _ => None end) evs.

(** Sample streams: a closed file, a closed connection, a connection whose
    peer has finished sending, and one that was reset. *)
Definition closed_file : Stream := failing_source 1 (Sentinel os_ErrClosed).
Definition closed_conn : Stream :=
  failing_source 2 (Wrapped "read tcp: use of closed network connection"
                            (Sentinel net_ErrClosed)).
Definition finished_conn : Stream := failing_source 3 (Sentinel io_EOF).
Definition reset_conn : Stream := failing_source 4 (Opaque "connection reset by peer").

(** What the spec asks of the result for a collected set [errs]: nil for
    none, the error itself for one, and for more one descriptive error,
    built from the whole slice, whose text names each of them. *)
Definition aggregated (errs : list error) (result : option error) : Prop :=
  match errs with
  | [] => result = None
  | [err] => result = Some err
  | _ => ∃ pre, result = Some (fmt_Errorf_v pre errs) ∧
                ∀ e, e ∈ errs → contains (Error (fmt_Errorf_v pre errs)) (Error e)
  end.

(** A stream that has nothing to read and whose [Close] fails. *)
Definition failing_closer (n : nat) (msg : string) : Stream :=
  {| sid := n; reads := []; last_read := ([], Sentinel io_EOF);
     Write := λ buf, (Z.of_nat (length buf), None); Close := Some (Opaque msg) |}.

(** A listener with the given [Accept] results and [Close] result. *)
Definition listener_of (script : list (Stream + error)) (close : option error) : Listener :=
  {| lid := 0; accepts := script; lclose := close; lrepr := "&{0xc000078000}" |}.

(** What [Run] returns once the group is joined. *)
Definition Run_finish (order : list nat) (rets : list (option error)) : option error :=
  match rungroup.Wait order rets with
  | Some err => Some (fmt_Errorf_w "listening group failed: " err "")
  | None => None
  end.

(** A process started with the destination set, the given result of
    [activation.Listeners()] and the given finishing order of the service
    group; dialing always fails. *)
Definition env_of (sockets : list Listener * option error) (order : list nat) : Env :=
  {| environ := {[ ToAddrEnvName := "[::1]:80" ]};
     systemd := (Some <$> sockets.1, sockets.2);
     dialer := λ _ _, inr (Opaque "connection refused");
     service_order := order;
     bridge_order := λ _, [0; 1; 2; 3] |}.

(** A listener that is closed before any connection arrives, and one whose
    [Accept] fails after one connection. *)
Definition closed_listener (close : option error) : Listener :=
  listener_of [inr (Sentinel net_ErrClosed)] close.

Definition failed_listener (close : option error) : Listener :=
  listener_of [inl finished_conn; inr (Opaque "too many open files")] close.

(** No destination, and two sockets instead of one. *)
Definition misconfigured : Env :=
  {| environ := ∅;
     systemd := ([Some (closed_listener None); Some (closed_listener None)], None);
     dialer := λ _ _, inr (Opaque "connection refused");
     service_order := [];
     bridge_order := λ _, [] |}.

(** The dial attempts among some events. *)
Definition dials (evs : list event) : list (string * string) :=
  omap (λ ev, match ev with
              | EvDial network address => Some (network, address)
              | _ => None
              end) evs.

(** Everything a handler does: its own events and those of the goroutines
    of its bridge. *)
Definition conn_all_events (run : ConnRun) : list event :=
  conn_events run ++ concat (events <$> conn_bridge run).

(** The same process with another dialer and other finishing orders of the
    bridges. *)
Definition with_connections (env : Env) (d : string → string → Stream + error)
    (orders : nat → list nat) : Env :=
  {| environ := environ env; systemd := systemd env; dialer := d;
     service_order := service_order env; bridge_order := orders |}.

(** The destination accepts connections over IPv4 only: whatever dial
    succeeds was made with network "tcp4" or "tcp". *)
Definition reachable_only_over_IPv4 (env : Env) (address : string) : Prop :=
  ∀ network to, dialer env network address = inl to →
    network = "tcp4" ∨ network = "tcp".

(** A process whose destination listens on IPv4 only. *)
Definition ipv4_env : Env :=
  {| environ := {[ ToAddrEnvName := "192.0.2.1:80" ]};
     systemd := ([], None);
     dialer := λ network _,
       if bool_decide (network = "tcp4" ∨ network = "tcp")
       then inl finished_conn
       else inr (Opaque "dial tcp6: address 192.0.2.1: no suitable address found");
     service_order := [];
     bridge_order := λ _, [] |}.

(** The sockets on which [Close] is called, among some events. *)
Definition closes (evs : list event) : list nat :=
  omap (λ ev, match ev with EvClose socket => Some socket | _ => None end) evs.

(** The [Accept] calls and the handler dispatches among some events. *)
Definition accept_calls (evs : list event) : list nat :=
  omap (λ ev, match ev with EvAccept l => Some l | _ => None end) evs.

Definition dispatches (evs : list event) : list nat :=
  omap (λ ev, match ev with EvGoHandler from _ _ => Some from | _ => None end) evs.

(** Everything a run of the service does: the events of [Run] itself, of
    the accept loop, of the listener closer and of every handler. *)
Definition run_all_events (run : ServiceRun) : list event :=
  run_events run
  ++ from_option loop_events [] (run_loop run)
  ++ from_option events [] (run_closer run)
  ++ concat (conn_all_events <$> run_handlers run).

(** The sockets a handler has to close: the accepted connection, and the
    dialed one when the dial succeeded. *)
Definition handler_sockets (env : Env) (dstAddr : string) (from : Stream) : list nat :=
  match dialer env "tcp6" dstAddr with
  | inl to => [sid to; sid from]
  | inr _ => [sid from]
  end.

(** A process that dials successfully, and a listener that accepts two
    connections before it is closed. *)
Definition dialing_env (sockets : list Listener * option error) (order : list nat) : Env :=
  {| environ := {[ ToAddrEnvName := "[::1]:80" ]};
     systemd := (Some <$> sockets.1, sockets.2);
     dialer := λ _ _, inl (failing_source 9 (Sentinel io_EOF));
     service_order := order;
     bridge_order := λ _, [0; 1; 2; 3] |}.

Definition busy_listener : Listener :=
  {| lid := 5;
     accepts := [inl finished_conn; inl reset_conn; inr (Sentinel net_ErrClosed)];
     lclose := None;
     lrepr := "&{0xc000078000}" |}.

(** A stream that was closed before: its [Close] reports [net.ErrClosed]. *)
Definition closed_twice (n : nat) : Stream :=
  {| sid := n; reads := []; last_read := ([], Sentinel io_EOF);
     Write := λ buf, (Z.of_nat (length buf), None);
     Close := Some (Sentinel net_ErrClosed) |}.


(** * Properties *)

(** ** Strings and error texts *)

Lemma append_assoc (s1 s2 s3 : string) : (s1 +:+ s2) +:+ s3 = s1 +:+ s2 +:+ s3.
Proof.
  induction s1 as [|c s1 IH]; [done|].
  change (String c ((s1 +:+ s2) +:+ s3) = String c (s1 +:+ s2 +:+ s3)).
  by f_equal.
Qed.

Lemma append_empty_r (s : string) : s +:+ "" = s.
Proof.
  induction s as [|c s IH]; [done|].
  change (String c (s +:+ "") = String c s). by f_equal.
Qed.

Lemma contains_refl s : contains s s.
Proof. exists "", "". by rewrite append_empty_r. Qed.

Lemma contains_app_l s t sub : contains s sub → contains (s +:+ t) sub.
Proof.
  intros (pre & post & ->). exists pre, (post +:+ t).
  by rewrite !append_assoc.
Qed.

Lemma contains_app_r s t sub : contains t sub → contains (s +:+ t) sub.
Proof.
  intros (pre & post & ->). exists (s +:+ pre), post.
  by rewrite !append_assoc.
Qed.

Lemma join_sp_contains (l : list string) (s : string) :
  s ∈ l → contains (join_sp l) s.
Proof.
  induction l as [|x l IH]; intros Hin; [by apply elem_of_nil in Hin|].
  apply elem_of_cons in Hin as [->|Hin].
  - destruct l as [|y l]; simpl; [apply contains_refl|].
    apply contains_app_l, contains_refl.
  - destruct l as [|y l]; [by apply elem_of_nil in Hin|].
    change (join_sp (x :: y :: l)) with (x +:+ " " +:+ join_sp (y :: l)).
    by apply contains_app_r, contains_app_r, IH.
Qed.

(** The text of the descriptive error names every error of the slice. *)
Lemma fmt_Errorf_v_contains (pre : string) (errs : list error) (e : error) :
  e ∈ errs → contains (Error (fmt_Errorf_v pre errs)) (Error e).
Proof.
  intros Hin. unfold fmt_Errorf_v, fmt_v_slice. simpl.
  apply contains_app_r, contains_app_r, contains_app_l, join_sp_contains.
  by apply list_elem_of_fmap_2.
Qed.

Lemma errors_Is_fmt_Errorf_w pre err post target :
  errors_Is (fmt_Errorf_w pre err post) target = errors_Is err target.
Proof. done. Qed.

(** ** The task group *)

Lemma collect_elem_of order rets e :
  e ∈ rungroup.collect order rets → Some e ∈ rets.
Proof.
  unfold rungroup.collect. rewrite list_elem_of_omap.
  intros (i & _ & Hi). destruct (rets !! i) as [r|] eqn:Hl; [|done].
  simpl in Hi. subst r. by eapply list_elem_of_lookup_2.
Qed.

Lemma collect_seq (rets : list (option error)) (k : nat) :
  omap (λ i, mjoin (rets !! i)) (seq k (length rets - k)) = omap id (drop k rets).
Proof.
  remember (length rets - k) as n eqn:Hn.
  revert k Hn. induction n as [|n IH]; intros k Hn.
  - rewrite drop_ge by lia. done.
  - destruct (lookup_lt_is_Some_2 rets k) as [r Hr]; [lia|].
    rewrite (drop_S _ _ _ Hr). simpl. rewrite Hr. simpl.
    rewrite IH by lia. done.
Qed.

(** When every goroutine has finished, the collected errors are the
    non-nil return values, each once, in some order. *)
Lemma collect_complete order rets :
  rungroup.complete order (length rets) →
  rungroup.collect order rets ≡ₚ omap id rets.
Proof.
  unfold rungroup.complete, rungroup.collect. intros ->.
  pose proof (collect_seq rets 0) as H.
  rewrite Nat.sub_0_r in H. by rewrite H.
Qed.

Lemma collect_all_nil order rets :
  Forall (λ r, r = None) rets → rungroup.collect order rets = [].
Proof.
  intros Hall. destruct (rungroup.collect order rets) as [|e l] eqn:Hc; [done|].
  assert (Some e ∈ rets) as Hin.
  { apply (collect_elem_of order). rewrite Hc. left. }
  rewrite Forall_forall in Hall. by apply Hall in Hin.
Qed.

Lemma Wait_None order rets :
  rungroup.Wait order rets = None ↔ rungroup.collect order rets = [].
Proof.
  unfold rungroup.Wait.
  destruct (rungroup.collect order rets) as [|e [|e' l]]; split; done.
Qed.

(** ** Benign closure *)

Lemma copyStream_switch_None err :
  copyStream_switch err = None ↔ benign err = true.
Proof.
  destruct err as [e|]; simpl; [|done].
  destruct (errors_Is e os_ErrClosed || errors_Is e net_ErrClosed); split; done.
Qed.

Lemma copyStream_switch_Some err e :
  err = Some e → benign err = false →
  copyStream_switch err = Some (fmt_Errorf_w "io.Copy failed: " e "").
Proof. intros -> Hb. simpl in *. by rewrite Hb. Qed.

Lemma copy_write_all dst buf : writes_all dst → copy_write dst buf = None.
Proof.
  intros Hw. unfold copy_write. destruct buf as [|b buf]; [done|].
  rewrite Hw. rewrite bool_decide_eq_false_2 by lia.
  by rewrite bool_decide_eq_false_2 by (intros H; apply H; done).
Qed.

(** A source that ends with [io.EOF], copied to a destination that takes
    every write, makes [io.Copy] return nil. *)
Lemma io_Copy_EOF dst src :
  writes_all dst → (last_read src).2 = Sentinel io_EOF → io_Copy dst src = None.
Proof.
  intros Hw Hlast. unfold io_Copy.
  induction (reads src) as [|buf rs IH]; simpl.
  - rewrite copy_write_all by done. by rewrite Hlast.
  - by rewrite copy_write_all.
Qed.

(** Every error value other than [io.EOF] is a possible result of
    [io.Copy]. *)
Lemma io_Copy_failing_source dst n err :
  err ≠ Sentinel io_EOF → io_Copy dst (failing_source n err) = Some err.
Proof.
  intros Hne. unfold io_Copy.
  cbn [failing_source reads last_read copy_loop copy_write fst snd].
  unfold copy_read_err. by rewrite bool_decide_eq_false_2.
Qed.

Lemma bridge_copier_quiet dst src msg :
  io_Copy dst src = None ∨
  (∃ err, io_Copy dst src = Some err ∧ errors_Is err net_ErrClosed = true) →
  events (bridge_copier dst src msg) = [EvCopy (sid dst) (sid src)].
Proof.
  unfold bridge_copier. simpl.
  intros [->|(err & -> & ->)]; done.
Qed.

Lemma bridge_copier_logs dst src msg err :
  io_Copy dst src = Some err → errors_Is err net_ErrClosed = false →
  events (bridge_copier dst src msg) = [EvCopy (sid dst) (sid src); EvLogError err msg].
Proof. unfold bridge_copier. simpl. by intros -> ->. Qed.

(** The errors [BridgeStreams] gets from its group come from a copy
    direction that ended with an error that is not benign, or from closing
    the streams. *)
Lemma BridgeStreams_errs_origin order a b e :
  e ∈ rungroup.Wait_errs order (ret <$> BridgeStreams_tasks a b) →
  (∃ err, (io_Copy a b = Some err ∨ io_Copy b a = Some err) ∧
          benign (Some err) = false ∧
          e = fmt_Errorf_w "io.Copy failed: " err "") ∨
  ret (closeAfterDone [a; b]) = Some e.
Proof.
  intros Hin. apply collect_elem_of in Hin.
  assert (∀ dst src, Some e = copyStream dst src →
    ∃ err, io_Copy dst src = Some err ∧ benign (Some err) = false ∧
           e = fmt_Errorf_w "io.Copy failed: " err "") as Hcopy.
  { intros dst src. unfold copyStream.
    destruct (io_Copy dst src) as [err|]; simpl; [|done].
    destruct (errors_Is err os_ErrClosed || errors_Is err net_ErrClosed) eqn:Hb;
      [done|].
    intros [= ->]. exists err. done. }
  cbn [BridgeStreams_tasks fmap list_fmap ret] in Hin.
  apply elem_of_cons in Hin as [Hab|Hin].
  { left. destruct (Hcopy _ _ Hab) as (err & ? & ? & ?). eauto. }
  apply elem_of_cons in Hin as [Hba|Hin].
  { left. destruct (Hcopy _ _ Hba) as (err & ? & ? & ?). eauto. }
  apply list_elem_of_singleton in Hin. by right.
Qed.

Lemma BridgeStreams_clean order a b :
  benign (io_Copy a b) = true → benign (io_Copy b a) = true →
  Close a = None → Close b = None →
  BridgeStreams order a b = None.
Proof.
  intros Hab Hba Ha Hb. unfold BridgeStreams, rungroup.Wait_errs.
  rewrite collect_all_nil; [done|].
  cbn [BridgeStreams_tasks fmap list_fmap ret closeAfterDone close_loop].
  rewrite Ha, Hb. unfold copyStream.
  apply copyStream_switch_None in Hab, Hba. rewrite Hab, Hba.
  repeat constructor.
Qed.

(** C1, as the code has it.  A copy direction that ends with a benign
    closure (no error, which is how [io.Copy] reports a source that ended
    with [io.EOF]; [os.ErrClosed]; [net.ErrClosed]) makes [copyStream]
    return nil, and [copyStream] returns nil for nothing else: any other
    error is returned, wrapped.  The errors [BridgeStreams] collects are
    wrapped copy errors that are not benign, or the result of closing; with
    two benign directions and clean closes it returns nil.  The top-level
    [bridgeStreams] reports neither nil nor [net.ErrClosed] to the logger,
    and reports every other copy error, [os.ErrClosed] included. *)
Theorem benign_closure_filtered :
  (∀ dst src, copyStream dst src = None ↔ benign (io_Copy dst src) = true) ∧
  (∀ dst src, writes_all dst → (last_read src).2 = Sentinel io_EOF →
     copyStream dst src = None) ∧
  (∀ dst src err, io_Copy dst src = Some err → benign (Some err) = false →
     copyStream dst src = Some (fmt_Errorf_w "io.Copy failed: " err "")) ∧
  (∀ order a b e,
     e ∈ rungroup.Wait_errs order (ret <$> BridgeStreams_tasks a b) →
     (∃ err, (io_Copy a b = Some err ∨ io_Copy b a = Some err) ∧
             benign (Some err) = false ∧
             e = fmt_Errorf_w "io.Copy failed: " err "") ∨
     ret (closeAfterDone [a; b]) = Some e) ∧
  (∀ order a b,
     benign (io_Copy a b) = true → benign (io_Copy b a) = true →
     Close a = None → Close b = None →
     BridgeStreams order a b = None) ∧
  (∀ dst src msg,
     io_Copy dst src = None ∨
     (∃ err, io_Copy dst src = Some err ∧ errors_Is err net_ErrClosed = true) →
     logged (events (bridge_copier dst src msg)) = []) ∧
  (∀ dst src msg err,
     io_Copy dst src = Some err → errors_Is err net_ErrClosed = false →
     logged (events (bridge_copier dst src msg)) = [err]).
Proof.
  split_and!.
  - intros dst src. apply copyStream_switch_None.
  - intros dst src Hw Heof. unfold copyStream. by rewrite io_Copy_EOF.
  - intros dst src err Hc Hb. unfold copyStream. rewrite Hc.
    by apply copyStream_switch_Some.
  - apply BridgeStreams_errs_origin.
  - apply BridgeStreams_clean.
  - intros dst src msg H. by rewrite bridge_copier_quiet.
  - intros dst src msg err Hc Hn. by rewrite (bridge_copier_logs _ _ _ err).
Qed.

Lemma benign_closure_filtered_witness :
  copyStream finished_conn closed_conn = None ∧
  copyStream closed_conn finished_conn = None ∧
  copyStream finished_conn reset_conn =
    Some (fmt_Errorf_w "io.Copy failed: " (Opaque "connection reset by peer") "") ∧
  BridgeStreams [0; 1; 2] closed_conn finished_conn = None ∧
  logged (events (bridge_copier finished_conn closed_conn "copy from->to failed")) = [] ∧
  logged (events (bridge_copier finished_conn closed_file "copy from->to failed")) =
    [Sentinel os_ErrClosed].
Proof.
  destruct benign_closure_filtered as (H1 & H2 & H3 & _ & H5 & H6 & H7).
  split_and!.
  - apply H1. reflexivity.
  - apply H2; [intros buf|]; reflexivity.
  - apply H3; reflexivity.
  - apply H5; reflexivity.
  - apply H6. right. eexists. split; reflexivity.
  - apply H7; reflexivity.
Defined.

(** C1 as stated does not hold: a copy direction of the top-level
    [bridgeStreams] that ends with [os.ErrClosed], which [copyStream]
    filters, is reported to the logger. *)
Lemma bridgeStreams_logs_os_ErrClosed :
  ¬ (∀ dst src msg, benign (io_Copy dst src) = true →
       logged (events (bridge_copier dst src msg)) = []).
Proof.
  intros H.
  specialize (H finished_conn closed_file "copy from->to failed" eq_refl).
  discriminate H.
Qed.

(** ** Error sets *)

Lemma close_loop_spec closers errs :
  close_loop closers errs = errs ++ omap Close closers.
Proof.
  revert errs. induction closers as [|closer rest IH]; intros errs; simpl.
  - by rewrite app_nil_r.
  - destruct (Close closer) as [err|]; rewrite IH; [|done].
    by rewrite <- app_assoc.
Qed.

Lemma omap_id_fmap {A B} (f : A → option B) (l : list A) :
  omap id (f <$> l) = omap f l.
Proof.
  induction l as [|x l IH]; [done|].
  rewrite fmap_cons. cbn [omap list_omap]. simpl (id _).
  fold (omap id (f <$> l)). fold (omap f l). by rewrite IH.
Qed.

Lemma closeAfterDone_switch_aggregated errs :
  aggregated errs (closeAfterDone_switch errs).
Proof.
  destruct errs as [|e1 [|e2 errs]]; [done..|].
  eexists. split; [done|]. intros e. apply fmt_Errorf_v_contains.
Qed.

Lemma BridgeStreams_switch_aggregated errs :
  aggregated errs (BridgeStreams_switch errs).
Proof.
  destruct errs as [|e1 [|e2 errs]]; [done..|].
  eexists. split; [done|]. intros e. apply fmt_Errorf_v_contains.
Qed.

(** C2.  [closeAfterDone] closes every closer and collects every error a
    [Close] returned, in order; [BridgeStreams] collects the errors its
    goroutines returned, each once when all of them have finished.  For the
    collected set both return nil if it is empty, the error itself if it has
    one element, and otherwise one descriptive error whose text names every
    element. *)
Theorem error_set_aggregated :
  (∀ closers,
     events (closeAfterDone closers) = EvDone :: (EvClose ∘ sid <$> closers) ∧
     aggregated (omap Close closers) (ret (closeAfterDone closers))) ∧
  (∀ order a b,
     aggregated (rungroup.Wait_errs order (ret <$> BridgeStreams_tasks a b))
                (BridgeStreams order a b)) ∧
  (∀ order a b,
     rungroup.complete order 3 →
     rungroup.Wait_errs order (ret <$> BridgeStreams_tasks a b)
       ≡ₚ omap ret (BridgeStreams_tasks a b)).
Proof.
  split_and!.
  - intros closers. split; [done|].
    unfold closeAfterDone. cbn [ret]. rewrite close_loop_spec.
    apply closeAfterDone_switch_aggregated.
  - intros order a b. apply BridgeStreams_switch_aggregated.
  - intros order a b Hc. unfold rungroup.Wait_errs.
    rewrite collect_complete by exact Hc.
    by rewrite omap_id_fmap.
Qed.

Example closeAfterDone_two_errors :
  closeAfterDone [failing_closer 1 "bad file descriptor"; finished_conn;
                  failing_closer 2 "input/output error"] =
  {| events := [EvDone; EvClose 1; EvClose 3; EvClose 2];
     ret := Some (Opaque "multiple errors while closing closers: [bad file descriptor input/output error]") |}.
Proof. reflexivity. Qed.

Lemma error_set_aggregated_witness :
  rungroup.Wait_errs [2; 0; 1] (ret <$> BridgeStreams_tasks reset_conn closed_conn)
    ≡ₚ omap ret (BridgeStreams_tasks reset_conn closed_conn).
Proof.
  apply error_set_aggregated. unfold rungroup.complete. simpl.
  apply (Permutation_cons_app [0; 1] []). reflexivity.
Defined.

(** ** The accept loop *)

Lemma accept_loop_app toAddr l (conns : list Stream) (script : list (Stream + error)) :
  accept_loop toAddr l ((inl <$> conns) ++ script) =
  {| loop_events :=
       (conns ≫= λ from, [EvAccept l; EvGoHandler (sid from) toAddr true])
       ++ loop_events (accept_loop toAddr l script);
     loop_dispatched := conns ++ loop_dispatched (accept_loop toAddr l script);
     loop_end := loop_end (accept_loop toAddr l script) |}.
Proof.
  induction conns as [|from conns IH].
  - simpl. by destruct (accept_loop toAddr l script).
  - rewrite fmap_cons, <- app_comm_cons. cbn [accept_loop]. rewrite IH. done.
Qed.

(** C3.  When the listener's [Accept] returns connections [conns] and then
    an error [err], [handleListener] returns: nil if [err] is
    [net.ErrClosed], and otherwise [err] wrapped.  Until then every
    [Accept] that returned a connection is followed, before the next
    [Accept], by the dispatch of one handler goroutine for that connection
    (with [NoCancelOnSuccess]); nothing else is dispatched. *)
Theorem handleListener_outcome toAddr (l : Listener) (conns : list Stream)
    (err : error) (rest : list (Stream + error)) :
  accepts l = (inl <$> conns) ++ inr err :: rest →
  let run := handleListener toAddr (Some l) in
  loop_end run =
    Returns (if errors_Is err net_ErrClosed then None
             else Some (fmt_Errorf_w "failed to accept new connection: " err "")) ∧
  loop_events run =
    (conns ≫= λ from, [EvAccept (lid l); EvGoHandler (sid from) toAddr true])
    ++ [EvAccept (lid l)] ∧
  loop_dispatched run = conns.
Proof.
  intros Hacc. unfold handleListener. rewrite Hacc, accept_loop_app.
  cbn [accept_loop loop_end loop_events loop_dispatched].
  split_and!; [by destruct (errors_Is err net_ErrClosed)|done|by rewrite app_nil_r].
Qed.

Lemma handleListener_outcome_witness :
  let run := handleListener "[::1]:80"
               (Some (listener_of [inl finished_conn; inl reset_conn;
                             inr (Wrapped "accept tcp: use of closed network connection"
                                          (Sentinel net_ErrClosed))] None)) in
  loop_end run = Returns None ∧
  loop_events run =
    [EvAccept 0; EvGoHandler 3 "[::1]:80" true;
     EvAccept 0; EvGoHandler 4 "[::1]:80" true; EvAccept 0] ∧
  loop_dispatched run = [finished_conn; reset_conn].
Proof.
  exact (handleListener_outcome "[::1]:80"
           (listener_of [inl finished_conn; inl reset_conn;
                         inr (Wrapped "accept tcp: use of closed network connection"
                                      (Sentinel net_ErrClosed))] None)
           [finished_conn; reset_conn] _ [] eq_refl).
Defined.

Example handleListener_fatal :
  loop_end (handleListener "[::1]:80"
              (Some (listener_of [inr (Opaque "too many open files")] None))) =
  Returns (Some (Wrapped "failed to accept new connection: too many open files"
                         (Opaque "too many open files"))).
Proof. reflexivity. Qed.

(** A listener whose [Accept] never fails keeps the loop running. *)
Lemma handleListener_blocks toAddr (l : Listener) (conns : list Stream) :
  accepts l = inl <$> conns → loop_end (handleListener toAddr (Some l)) = Blocks.
Proof.
  intros Hacc. unfold handleListener.
  rewrite Hacc, <- (app_nil_r (inl <$> conns)), accept_loop_app. done.
Qed.

(** ** The top-level bridge *)

Lemma bridgeStreams_tasks_ret to from :
  ret <$> bridgeStreams_tasks to from = [None; None; None; None].
Proof. done. Qed.

Lemma bridgeStreams_returns order to from :
  bridgeStreams order to from = (bridgeStreams_tasks to from, Returns ()).
Proof.
  unfold bridgeStreams.
  assert (rungroup.Wait order (ret <$> bridgeStreams_tasks to from) = None) as ->; [|done].
  apply Wait_None, collect_all_nil. rewrite bridgeStreams_tasks_ret.
  repeat constructor.
Qed.

Lemma BridgeStreams_switch_Some errs e :
  e ∈ errs → BridgeStreams_switch errs ≠ None.
Proof. destruct errs as [|e1 [|e2 errs]]; [by intros ?%elem_of_nil|done..]. Qed.

(** C4.  [bridgeStreams] starts four goroutines, each of which returns nil
    whatever its copy or close did; so its group collects no error, [Wait]
    returns nil and [bridgeStreams] returns without reaching its [panic].
    [BridgeStreams] returns what its group collected, aggregated, and that
    is an error as soon as one goroutine returned one. *)
Theorem bridgeStreams_never_panics :
  (∀ order to from,
     length (bridgeStreams_tasks to from) = 4 ∧
     Forall (λ t, ret t = None) (bridgeStreams_tasks to from) ∧
     rungroup.collect order (ret <$> bridgeStreams_tasks to from) = [] ∧
     rungroup.Wait order (ret <$> bridgeStreams_tasks to from) = None ∧
     (bridgeStreams order to from).2 = Returns ()) ∧
  (∀ order a b,
     BridgeStreams order a b =
       BridgeStreams_switch (rungroup.Wait_errs order (ret <$> BridgeStreams_tasks a b)) ∧
     aggregated (rungroup.Wait_errs order (ret <$> BridgeStreams_tasks a b))
                (BridgeStreams order a b)) ∧
  (∀ order a b e,
     e ∈ rungroup.Wait_errs order (ret <$> BridgeStreams_tasks a b) →
     BridgeStreams order a b ≠ None).
Proof.
  split_and!.
  - intros order to from.
    assert (rungroup.collect order (ret <$> bridgeStreams_tasks to from) = []) as Hc.
    { apply collect_all_nil. rewrite bridgeStreams_tasks_ret. repeat constructor. }
    split_and!; [done|repeat constructor|done|by apply Wait_None|].
    by rewrite bridgeStreams_returns.
  - intros order a b. split; [done|]. apply BridgeStreams_switch_aggregated.
  - intros order a b e. apply BridgeStreams_switch_Some.
Qed.

Lemma bridgeStreams_never_panics_witness :
  BridgeStreams [0; 1; 2] finished_conn reset_conn ≠ None.
Proof.
  destruct bridgeStreams_never_panics as (_ & _ & H).
  apply (H _ _ _ (fmt_Errorf_w "io.Copy failed: " (Opaque "connection reset by peer") "")).
  vm_compute. left.
Defined.

(** ** The connection handler *)

Lemma handleConn_dial_failed env from dstAddr err :
  dialer env "tcp6" dstAddr = inr err →
  handleConn env from dstAddr =
  {| conn_events :=
       EvDial "tcp6" dstAddr ::
       EvLogError err "couldn't connect to dstAddr. closing accepted connection" ::
       EvClose (sid from) ::
       match Close from with
       | Some err => [EvLogError err "couldn't close accepted connection"]
       | None => []
       end;
     conn_bridge := [];
     conn_end := Returns () |}.
Proof. unfold handleConn. by intros ->. Qed.

Lemma handleConn_dialed env from dstAddr to :
  dialer env "tcp6" dstAddr = inl to →
  handleConn env from dstAddr =
  {| conn_events := [EvDial "tcp6" dstAddr];
     conn_bridge := bridgeStreams_tasks to from;
     conn_end := Returns () |}.
Proof. unfold handleConn. intros ->. by rewrite bridgeStreams_returns. Qed.

Lemma handleConn_returns env from dstAddr :
  conn_end (handleConn env from dstAddr) = Returns ().
Proof.
  destruct (dialer env "tcp6" dstAddr) as [to|err] eqn:Hd.
  - by rewrite (handleConn_dialed _ _ _ to).
  - by rewrite (handleConn_dial_failed _ _ _ err).
Qed.

Lemma handler_task_returns env from toAddr :
  (handler_task env from toAddr).2 = Returns None.
Proof. unfold handler_task. simpl. by rewrite handleConn_returns. Qed.

(** ** The service *)

Lemma joined_handlers env toAddr (conns : list Stream) :
  joined (snd <$> ((λ from, handler_task env from toAddr) <$> conns)) =
  Returns (replicate (length conns) None).
Proof.
  induction conns as [|from conns IH]; [done|].
  rewrite !fmap_cons. cbn [joined length replicate].
  rewrite handler_task_returns. by rewrite IH.
Qed.

Lemma omap_id_replicate_None {A} (n : nat) : omap id (replicate n (@None A)) = [].
Proof. induction n as [|n IH]; [done|]. exact IH. Qed.

Lemma omap_id_nil {A} (rets : list (option A)) :
  omap id rets = [] ↔ Forall (λ r, r = None) rets.
Proof.
  induction rets as [|[a|] rets IH].
  - split; [constructor|done].
  - split; [done|]. by intros [? _]%Forall_cons_1.
  - change (omap id (None :: rets)) with (omap id rets). rewrite IH.
    split; [by constructor|by intros [_ ?]%Forall_cons_1].
Qed.

Lemma Wait_complete_None order rets :
  rungroup.complete order (length rets) →
  rungroup.Wait order rets = None ↔ Forall (λ r, r = None) rets.
Proof.
  intros Hc. rewrite Wait_None, <- omap_id_nil.
  pose proof (collect_complete _ _ Hc) as Hp. split; intros H.
  - rewrite H in Hp. by apply Permutation_nil_l in Hp.
  - rewrite H in Hp. by apply Permutation_nil_r in Hp.
Qed.

Lemma Wait_complete_single order rets e :
  rungroup.complete order (length rets) → omap id rets = [e] →
  rungroup.Wait order rets = Some e.
Proof.
  intros Hc He. pose proof (collect_complete _ _ Hc) as Hp.
  rewrite He in Hp. apply Permutation_singleton_r in Hp.
  unfold rungroup.Wait. by rewrite Hp.
Qed.

(** [Run] past its start-up checks, with a listener that is not nil. *)
Lemma Run_started env toAddr (l : Listener) :
  environ env !! ToAddrEnvName = Some toAddr → systemd env = ([Some l], None) →
  let loop := handleListener toAddr (Some l) in
  run_events (Run env) = [EvLookupEnv ToAddrEnvName; EvListeners] ∧
  run_loop (Run env) = Some loop ∧
  run_closer (Run env) = closer_run (loop_end loop) (Some l) ∧
  run_handlers (Run env) = (λ from, handleConn env from toAddr) <$> loop_dispatched loop ∧
  run_end (Run env) =
    match loop_end loop with
    | Returns r =>
      Returns (Run_finish (service_order env)
                 (r :: ret (listener_closer l)
                    :: replicate (length (loop_dispatched loop)) None))
    | Blocks => Blocks
    | Panics msg => Panics msg
    end.
Proof.
  intros Henv Hsys loop. unfold Run. rewrite Henv, Hsys.
  rewrite bool_decide_eq_false_2 by (intros H; by apply H).
  change ([Some l] !! 0) with (Some (Some l)). cbv beta iota zeta.
  cbn [run_events run_loop run_closer run_handlers run_end].
  fold loop. split_and!; try done.
  - rewrite <- list_fmap_compose. done.
  - destruct (loop_end loop) as [r| |msg]; cbn [closer_run from_option joined].
    + rewrite joined_handlers. unfold Run_finish.
      by destruct (rungroup.Wait _ _).
    + by rewrite joined_handlers.
    + done.
Qed.

(** [Run] past its start-up checks, with a nil listener: the accept loop
    panics at once. *)
Lemma Run_nil_listener env toAddr :
  environ env !! ToAddrEnvName = Some toAddr → systemd env = ([None], None) →
  Run env =
  {| run_events := [EvLookupEnv ToAddrEnvName; EvListeners];
     run_loop := Some (handleListener toAddr None);
     run_closer := None;
     run_handlers := [];
     run_end := Panics "invalid memory address or nil pointer dereference" |}.
Proof. intros Henv Hsys. unfold Run. by rewrite Henv, Hsys. Qed.

(** The ways [Run] ends before it starts the group. *)
Lemma Run_env_missing env :
  environ env !! ToAddrEnvName = None →
  Run env = startup_failure [EvLookupEnv ToAddrEnvName]
              (fmt_Errorf_w "" errEnvMissing (": " +:+ ToAddrEnvName)).
Proof. unfold Run. by intros ->. Qed.

Lemma Run_listeners_failed env toAddr err :
  environ env !! ToAddrEnvName = Some toAddr → (systemd env).2 = Some err →
  Run env = startup_failure [EvLookupEnv ToAddrEnvName; EvListeners]
              (fmt_Errorf_w "could not get systemd sockets: " err "").
Proof.
  unfold Run. intros ->. destruct (systemd env) as [listeners e]; simpl.
  by intros ->.
Qed.

Lemma Run_socket_amount env toAddr :
  environ env !! ToAddrEnvName = Some toAddr → (systemd env).2 = None →
  length (systemd env).1 ≠ 1 →
  Run env = startup_failure [EvLookupEnv ToAddrEnvName; EvListeners]
              (fmt_Errorf_w "" errUnexpectedSocketAmount
                 (": " +:+ fmt_v_slice (listener_repr <$> (systemd env).1))).
Proof.
  unfold Run. intros ->. destruct (systemd env) as [listeners e]; simpl.
  intros -> Hlen. by rewrite bool_decide_eq_true_2.
Qed.

(** C5, as the code has it.  Once [Run] has started its group and the
    accept loop has returned, [Run] returns.  It returns nil exactly when
    the accept loop returned nil and closing the listener succeeded.  When
    only the accept loop failed, [Run] returns its error wrapped in
    "listening group failed"; when only closing the listener failed, it
    returns that error, wrapped twice.  The handlers never contribute. *)
Theorem Run_result env toAddr (l : Listener) (r_loop : option error) :
  environ env !! ToAddrEnvName = Some toAddr → systemd env = ([Some l], None) →
  loop_end (handleListener toAddr (Some l)) = Returns r_loop →
  rungroup.complete (service_order env)
    (2 + length (loop_dispatched (handleListener toAddr (Some l)))) →
  ∃ r, run_end (Run env) = Returns r ∧
    (r = None ↔ r_loop = None ∧ lclose l = None) ∧
    (∀ e, r_loop = Some e → lclose l = None →
       r = Some (fmt_Errorf_w "listening group failed: " e "")) ∧
    (∀ e, r_loop = None → lclose l = Some e →
       r = Some (fmt_Errorf_w "listening group failed: "
                   (fmt_Errorf_w "could not close listener: " e "") "")).
Proof.
  intros Henv Hsys Hloop Hc.
  destruct (Run_started env toAddr l Henv Hsys) as (_ & _ & _ & _ & Hend).
  rewrite Hloop in Hend. eexists. split; [exact Hend|].
  set (n := length (loop_dispatched (handleListener toAddr (Some l)))) in *.
  set (rets := r_loop :: ret (listener_closer l) :: replicate n None).
  assert (rungroup.complete (service_order env) (length rets)) as Hc'.
  { unfold rets. cbn [length]. by rewrite length_replicate. }
  assert (omap id rets = omap id [r_loop; ret (listener_closer l)]) as Hrets.
  { unfold rets.
    change (r_loop :: ret (listener_closer l) :: replicate n None)
      with ([r_loop; ret (listener_closer l)] ++ replicate n None).
    by rewrite omap_app, omap_id_replicate_None, app_nil_r. }
  unfold Run_finish. split_and!.
  - destruct (rungroup.Wait (service_order env) rets) as [err|] eqn:Hw.
    + split; [done|]. intros [-> Hcl].
      assert (rungroup.Wait (service_order env) rets = None) as Hn; [|congruence].
      apply Wait_complete_None; [done|]. apply omap_id_nil. rewrite Hrets.
      unfold listener_closer. cbn [ret]. by rewrite Hcl.
    + split; [|done]. intros _.
      apply Wait_complete_None in Hw; [|done].
      apply omap_id_nil in Hw. rewrite Hrets in Hw.
      unfold listener_closer in Hw. cbn [ret] in Hw.
      destruct r_loop, (lclose l); done.
  - intros e -> Hcl.
    rewrite (Wait_complete_single _ _ e); [done..|].
    rewrite Hrets. unfold listener_closer. cbn [ret]. by rewrite Hcl.
  - intros e -> Hcl.
    rewrite (Wait_complete_single _ _ (fmt_Errorf_w "could not close listener: " e ""));
      [done..|].
    rewrite Hrets. unfold listener_closer. cbn [ret]. by rewrite Hcl.
Qed.

Lemma Run_result_witness :
  run_end (Run (env_of ([closed_listener None], None) [0; 1])) = Returns None ∧
  run_end (Run (env_of ([failed_listener None], None) [2; 0; 1])) =
    Returns (Some (fmt_Errorf_w "listening group failed: "
                     (fmt_Errorf_w "failed to accept new connection: "
                        (Opaque "too many open files") "") "")).
Proof.
  split.
  - destruct (Run_result (env_of ([closed_listener None], None) [0; 1]) "[::1]:80"
                (closed_listener None) None eq_refl eq_refl eq_refl
                (Permutation_refl [0; 1]))
      as (r & Hend & Hnil & _).
    rewrite Hend. f_equal. apply Hnil. split; reflexivity.
  - assert (rungroup.complete [2; 0; 1] 3) as Hc.
    { apply (Permutation_cons_app [0; 1] []). reflexivity. }
    destruct (Run_result (env_of ([failed_listener None], None) [2; 0; 1])
                "[::1]:80" (failed_listener None)
                (Some (fmt_Errorf_w "failed to accept new connection: "
                         (Opaque "too many open files") ""))
                eq_refl eq_refl eq_refl Hc)
      as (r & Hend & _ & Hloop & _).
    rewrite Hend. f_equal. apply Hloop; reflexivity.
Defined.

(** C5 as stated does not hold: the accept loop returns nil on
    [net.ErrClosed], closing the listener fails, and [Run] returns that
    failure. *)
Lemma Run_fails_on_listener_close :
  ¬ (∀ env toAddr (l : Listener) r_loop r,
       environ env !! ToAddrEnvName = Some toAddr → systemd env = ([Some l], None) →
       loop_end (handleListener toAddr (Some l)) = Returns r_loop →
       rungroup.complete (service_order env)
         (2 + length (loop_dispatched (handleListener toAddr (Some l)))) →
       run_end (Run env) = Returns r →
       (r = None ↔ r_loop = None)).
Proof.
  intros H.
  pose (l := closed_listener (Some (Opaque "bad file descriptor"))).
  specialize (H (env_of ([l], None) [0; 1]) "[::1]:80" l None
    (Some (fmt_Errorf_w "listening group failed: "
             (fmt_Errorf_w "could not close listener: "
                (Opaque "bad file descriptor") "") ""))
    eq_refl eq_refl eq_refl (Permutation_refl [0; 1]) eq_refl).
  destruct H as [_ H]. discriminate (H eq_refl).
Qed.




(** C10.  With the destination variable unset, whatever the sockets are,
    [Run] returns the error that wraps [errEnvMissing] and names the
    variable, and [activation.Listeners()] is not called: looking the
    variable up is all [Run] does. *)
Theorem Run_checks_env_first env :
  environ env !! ToAddrEnvName = None →
  let err := fmt_Errorf_w "" errEnvMissing (": " +:+ ToAddrEnvName) in
  run_end (Run env) = Returns (Some err) ∧
  errors_Is err EnvMissing = true ∧
  errors_Is err UnexpectedSocketAmount = false ∧
  run_events (Run env) = [EvLookupEnv ToAddrEnvName] ∧
  EvListeners ∉ run_events (Run env).
Proof.
  intros Henv err. rewrite (Run_env_missing env Henv). simpl.
  split_and!; [done..|].
  by rewrite list_elem_of_singleton.
Qed.

Lemma Run_checks_env_first_witness :
  run_end (Run misconfigured) =
    Returns (Some (Wrapped "environment variable is not set: TCPV4TO6_DESTINATION_ADDR"
                           errEnvMissing)) ∧
  run_events (Run misconfigured) = [EvLookupEnv ToAddrEnvName].
Proof.
  destruct (Run_checks_env_first misconfigured eq_refl) as (H1 & _ & _ & H2 & _).
  split; [exact H1|exact H2].
Defined.

(** ** Isolation of connection failures *)

Lemma dials_bridge to from :
  dials (concat (events <$> bridgeStreams_tasks to from)) = [].
Proof.
  unfold bridgeStreams_tasks, bridge_copier, bridge_closer. simpl.
  destruct (io_Copy to from) as [e1|], (io_Copy from to) as [e2|],
           (Close to) as [e3|], (Close from) as [e4|]; simpl;
    repeat match goal with |- context [errors_Is ?e ?t] => destruct (errors_Is e t) end;
    reflexivity.
Qed.

Lemma handleConn_dials env from dstAddr :
  dials (conn_all_events (handleConn env from dstAddr)) = [("tcp6", dstAddr)].
Proof.
  unfold conn_all_events.
  destruct (dialer env "tcp6" dstAddr) as [to|err] eqn:Hd.
  - rewrite (handleConn_dialed _ _ _ to Hd). cbn [conn_events conn_bridge].
    unfold dials. rewrite omap_app. fold (dials (concat (events <$> bridgeStreams_tasks to from))).
    by rewrite dials_bridge.
  - rewrite (handleConn_dial_failed _ _ _ err Hd). cbn [conn_events conn_bridge].
    by destruct (Close from).
Qed.

Lemma Run_end_with_connections env d orders :
  run_end (Run (with_connections env d orders)) = run_end (Run env).
Proof.
  destruct (environ env !! ToAddrEnvName) as [toAddr|] eqn:Henv.
  - destruct (systemd env) as [listeners [err|]] eqn:Hsys.
    + rewrite (Run_listeners_failed env toAddr err) by (by rewrite ?Hsys).
      by rewrite (Run_listeners_failed (with_connections env d orders) toAddr err)
        by (simpl; by rewrite ?Hsys).
    + destruct (decide (length listeners = 1)) as [Hlen|Hlen].
      * destruct listeners as [|l [|l' listeners]]; [done| |done].
        destruct l as [l|].
        -- destruct (Run_started env toAddr l Henv Hsys) as (_ & _ & _ & _ & ->).
           by destruct (Run_started (with_connections env d orders) toAddr l Henv Hsys)
             as (_ & _ & _ & _ & ->).
        -- rewrite (Run_nil_listener env toAddr Henv Hsys).
           by rewrite (Run_nil_listener (with_connections env d orders) toAddr Henv Hsys).
      * rewrite (Run_socket_amount env toAddr) by (by rewrite ?Hsys).
        rewrite (Run_socket_amount (with_connections env d orders) toAddr)
          by (simpl; by rewrite ?Hsys).
        done.
  - rewrite (Run_env_missing env Henv).
    by rewrite (Run_env_missing (with_connections env d orders)).
Qed.

(** C7.  A handler dials once, with the destination it was given.  When the
    dial fails it logs the dial error, closes the accepted connection, logs
    the error of that close if there is one, and returns: no second dial,
    no bridge.  Whatever the dial and the bridge do, [handleConn] returns,
    and the goroutine dispatched for the connection returns nil to the
    service group; so all handlers of [Run] return, and what [Run] returns
    does not depend on the dialer or on what happens in the bridges. *)
Theorem handleConn_isolated env from dstAddr :
  dials (conn_all_events (handleConn env from dstAddr)) = [("tcp6", dstAddr)] ∧
  (∀ err, dialer env "tcp6" dstAddr = inr err →
     conn_events (handleConn env from dstAddr) =
       EvDial "tcp6" dstAddr ::
       EvLogError err "couldn't connect to dstAddr. closing accepted connection" ::
       EvClose (sid from) ::
       match Close from with
       | Some err => [EvLogError err "couldn't close accepted connection"]
       | None => []
       end ∧
     conn_bridge (handleConn env from dstAddr) = []) ∧
  conn_end (handleConn env from dstAddr) = Returns () ∧
  (handler_task env from dstAddr).2 = Returns None ∧
  Forall (λ run, conn_end run = Returns ()) (run_handlers (Run env)) ∧
  (∀ d orders, run_end (Run (with_connections env d orders)) = run_end (Run env)).
Proof.
  split_and!.
  - apply handleConn_dials.
  - intros err Hd. by rewrite (handleConn_dial_failed _ _ _ err Hd).
  - apply handleConn_returns.
  - apply handler_task_returns.
  - destruct (environ env !! ToAddrEnvName) as [toAddr|] eqn:Henv.
    + destruct (systemd env) as [listeners [err|]] eqn:Hsys.
      * rewrite (Run_listeners_failed env toAddr err) by (by rewrite ?Hsys).
        constructor.
      * destruct (decide (length listeners = 1)) as [Hlen|Hlen].
        -- destruct listeners as [|l [|l' listeners]]; [done| |done].
           destruct l as [l|].
           ++ destruct (Run_started env toAddr l Henv Hsys) as (_ & _ & _ & -> & _).
              apply Forall_fmap, Forall_forall. intros c _. apply handleConn_returns.
           ++ rewrite (Run_nil_listener env toAddr Henv Hsys). constructor.
        -- rewrite (Run_socket_amount env toAddr) by (by rewrite ?Hsys).
           constructor.
    + rewrite (Run_env_missing env Henv). constructor.
  - apply Run_end_with_connections.
Qed.

Lemma handleConn_isolated_witness :
  conn_events (handleConn (env_of ([], None) []) (failing_closer 7 "broken pipe") "[::1]:80") =
  [EvDial "tcp6" "[::1]:80";
   EvLogError (Opaque "connection refused")
     "couldn't connect to dstAddr. closing accepted connection";
   EvClose 7;
   EvLogError (Opaque "broken pipe") "couldn't close accepted connection"] ∧
  conn_bridge (handleConn (env_of ([], None) []) (failing_closer 7 "broken pipe") "[::1]:80") = [].
Proof.
  apply (handleConn_isolated (env_of ([], None) []) (failing_closer 7 "broken pipe")
           "[::1]:80").
  reflexivity.
Defined.

(** ** The dialed network *)

(** C9.  [handleConn] dials with the network "tcp6", whatever the
    destination address is, and with no other network.  So for a
    destination that is reachable only over IPv4 the dial fails, the
    accepted connection is closed and nothing is bridged. *)
Theorem handleConn_dials_tcp6 env from dstAddr :
  (∃ evs, conn_events (handleConn env from dstAddr) = EvDial "tcp6" dstAddr :: evs) ∧
  dials (conn_all_events (handleConn env from dstAddr)) = [("tcp6", dstAddr)] ∧
  (reachable_only_over_IPv4 env dstAddr →
     (∃ err, dialer env "tcp6" dstAddr = inr err) ∧
     EvClose (sid from) ∈ conn_events (handleConn env from dstAddr) ∧
     conn_bridge (handleConn env from dstAddr) = []).
Proof.
  split_and!.
  - unfold handleConn. destruct (dialer env "tcp6" dstAddr) as [to|err].
    + rewrite bridgeStreams_returns. eauto.
    + eauto.
  - apply handleConn_dials.
  - intros Hv4. destruct (dialer env "tcp6" dstAddr) as [to|err] eqn:Hd.
    { destruct (Hv4 _ _ Hd) as [?|?]; discriminate. }
    rewrite (handleConn_dial_failed _ _ _ err Hd). cbn [conn_events conn_bridge].
    split_and!; [by eauto| |done].
    rewrite !elem_of_cons. auto.
Qed.

Lemma handleConn_dials_tcp6_witness :
  EvClose 4 ∈ conn_events (handleConn ipv4_env reset_conn "192.0.2.1:80") ∧
  conn_bridge (handleConn ipv4_env reset_conn "192.0.2.1:80") = [].
Proof.
  destruct (handleConn_dials_tcp6 ipv4_env reset_conn "192.0.2.1:80")
    as (_ & _ & H).
  apply H. intros network to. unfold ipv4_env. cbn [dialer].
  destruct (bool_decide (network = "tcp4" ∨ network = "tcp")) eqn:Hb.
  - intros _. by apply bool_decide_eq_true_1 in Hb.
  - discriminate.
Defined.

(** ** Closing *)

(** The two close-watchers of [bridgeStreams] close one stream each, after
    [ctx.Done()], whatever the copies did. *)
Lemma bridgeStreams_closers to from :
  ∃ t3 t4 logs3 logs4,
    bridgeStreams_tasks to from !! 2 = Some t3 ∧
    bridgeStreams_tasks to from !! 3 = Some t4 ∧
    events t3 = EvDone :: EvClose (sid to) :: logs3 ∧
    events t4 = EvDone :: EvClose (sid from) :: logs4.
Proof. unfold bridgeStreams_tasks, bridge_closer. simpl. eauto 10. Qed.

(** A dial that succeeds: both directions end with a closed connection,
    nothing is logged and both connections are closed. *)
Example handleConn_bridged :
  let env := {| environ := ∅; systemd := ([], None);
                dialer := λ _ _, inl closed_conn;
                service_order := []; bridge_order := λ _, [3; 2; 0; 1] |} in
  handleConn env finished_conn "[::1]:80" =
  {| conn_events := [EvDial "tcp6" "[::1]:80"];
     conn_bridge :=
       [ {| events := [EvCopy 2 3]; ret := None |};
         {| events := [EvCopy 3 2]; ret := None |};
         {| events := [EvDone; EvClose 2]; ret := None |};
         {| events := [EvDone; EvClose 3]; ret := None |} ];
     conn_end := Returns () |}.
Proof. reflexivity. Qed.

(** A service that accepts one connection, cannot dial, and is then shut
    down. *)
Example Run_one_connection :
  let l := listener_of [inl reset_conn; inr (Sentinel net_ErrClosed)] None in
  Run (env_of ([l], None) [1; 0; 2]) =
  {| run_events := [EvLookupEnv ToAddrEnvName; EvListeners];
     run_loop := Some {| loop_events := [EvAccept 0; EvGoHandler 4 "[::1]:80" true; EvAccept 0];
                         loop_dispatched := [reset_conn];
                         loop_end := Returns None |};
     run_closer := Some {| events := [EvDone; EvClose 0]; ret := None |};
     run_handlers :=
       [ {| conn_events :=
              [EvDial "tcp6" "[::1]:80";
               EvLogError (Opaque "connection refused")
                 "couldn't connect to dstAddr. closing accepted connection";
               EvClose 4];
            conn_bridge := [];
            conn_end := Returns () |} ];
     run_end := Returns None |}.
Proof. reflexivity. Qed.

(** * Further properties *)

(** ** [closeAfterDone] and [copyStream] *)

Lemma omap_Close_nil (closers : list Stream) :
  omap Close closers = [] ↔ Forall (λ c, Close c = None) closers.
Proof.
  induction closers as [|c closers IH].
  - split; [constructor|done].
  - cbn [omap list_omap]. fold (omap Close closers).
    destruct (Close c) as [e|] eqn:Hc.
    + split; [done|]. intros [? _]%Forall_cons_1. congruence.
    + rewrite IH. split; [by constructor|by intros [_ ?]%Forall_cons_1].
Qed.

Lemma closes_fmap_EvClose (closers : list Stream) :
  closes (EvClose ∘ sid <$> closers) = sid <$> closers.
Proof.
  induction closers as [|c closers IH]; [done|].
  rewrite !fmap_cons. unfold closes in *. cbn [omap list_omap compose].
  f_equal. exact IH.
Qed.

Lemma closeAfterDone_switch_None errs :
  closeAfterDone_switch errs = None ↔ errs = [].
Proof. destruct errs as [|e1 [|e2 errs]]; split; done. Qed.

(** X1.  [closeAfterDone] calls [Close] on every closer, once and in
    order, also after a [Close] has failed; it returns nil exactly when
    every [Close] returned nil, and it collects as many errors as there are
    closers whose [Close] failed. *)
Theorem closeAfterDone_closes_all (closers : list Stream) :
  closes (events (closeAfterDone closers)) = sid <$> closers ∧
  (ret (closeAfterDone closers) = None ↔ Forall (λ c, Close c = None) closers) ∧
  close_loop closers [] = omap Close closers ∧
  (length (close_loop closers []) ≤ length closers)%nat.
Proof.
  split_and!.
  - unfold closeAfterDone. cbn [events]. unfold closes. cbn [omap list_omap].
    apply closes_fmap_EvClose.
  - unfold closeAfterDone. cbn [ret]. rewrite close_loop_spec, app_nil_l.
    rewrite closeAfterDone_switch_None. apply omap_Close_nil.
  - by rewrite close_loop_spec.
  - rewrite close_loop_spec, app_nil_l.
    induction closers as [|c closers IH]; [done|].
    cbn [omap list_omap length]. fold (omap Close closers).
    destruct (Close c); cbn [length]; lia.
Qed.

Lemma closeAfterDone_closes_all_witness :
  ret (closeAfterDone [finished_conn; closed_conn; reset_conn]) = None.
Proof.
  destruct (closeAfterDone_closes_all [finished_conn; closed_conn; reset_conn])
    as (_ & H & _).
  apply H. repeat constructor.
Defined.

(** X2.  An error returned by [copyStream] is the error of [io.Copy]
    wrapped with [%w]: its text is the text of that error after "io.Copy
    failed: ", [errors.Is] answers for it as for that error, and it is
    neither [os.ErrClosed] nor [net.ErrClosed]. *)
Theorem copyStream_error_identity dst src (e : error) :
  copyStream dst src = Some e →
  ∃ err, io_Copy dst src = Some err ∧
    Error e = "io.Copy failed: " +:+ Error err ∧
    (∀ target, errors_Is e target = errors_Is err target) ∧
    errors_Is e os_ErrClosed = false ∧
    errors_Is e net_ErrClosed = false.
Proof.
  unfold copyStream. destruct (io_Copy dst src) as [err|]; [|done].
  cbn [copyStream_switch].
  destruct (errors_Is err os_ErrClosed) eqn:Hos; [done|].
  destruct (errors_Is err net_ErrClosed) eqn:Hnet; [done|].
  intros [= <-]. exists err. split_and!; try done.
  unfold fmt_Errorf_w. cbn [Error]. by rewrite append_empty_r.
Qed.

Lemma copyStream_error_identity_witness :
  ∃ err, io_Copy finished_conn (failing_source 8 (Sentinel io_ErrShortWrite)) = Some err ∧
    Error (fmt_Errorf_w "io.Copy failed: " (Sentinel io_ErrShortWrite) "") =
      "io.Copy failed: " +:+ Error err ∧
    (∀ target, errors_Is (fmt_Errorf_w "io.Copy failed: " (Sentinel io_ErrShortWrite) "") target =
               errors_Is err target) ∧
    errors_Is (fmt_Errorf_w "io.Copy failed: " (Sentinel io_ErrShortWrite) "") os_ErrClosed = false ∧
    errors_Is (fmt_Errorf_w "io.Copy failed: " (Sentinel io_ErrShortWrite) "") net_ErrClosed = false.
Proof.
  apply (copyStream_error_identity finished_conn
           (failing_source 8 (Sentinel io_ErrShortWrite))).
  reflexivity.
Defined.

Lemma errors_Is_fmt_Errorf_v pre errs target :
  errors_Is (fmt_Errorf_v pre errs) target = false.
Proof. done. Qed.

(** X3.  The descriptive error built for two or more collected errors
    wraps none of them ([%v], not [%w]): [errors.Is] finds no sentinel in
    what [closeAfterDone] and [BridgeStreams] return then, whatever the
    collected errors were. *)
Theorem aggregated_error_opaque :
  (∀ closers e target,
     (2 ≤ length (omap Close closers))%nat →
     ret (closeAfterDone closers) = Some e → errors_Is e target = false) ∧
  (∀ order a b e target,
     (2 ≤ length (rungroup.Wait_errs order (ret <$> BridgeStreams_tasks a b)))%nat →
     BridgeStreams order a b = Some e → errors_Is e target = false).
Proof.
  split.
  - intros closers e target Hlen. unfold closeAfterDone. cbn [ret].
    rewrite close_loop_spec, app_nil_l.
    destruct (omap Close closers) as [|e1 [|e2 errs]]; simpl in Hlen; [lia..|].
    by intros [= <-].
  - intros order a b e target Hlen. unfold BridgeStreams.
    destruct (rungroup.Wait_errs _ _) as [|e1 [|e2 errs]]; simpl in Hlen; [lia..|].
    by intros [= <-].
Qed.

Lemma aggregated_error_opaque_witness :
  errors_Is (Opaque "multiple errors while closing closers: [use of closed network connection use of closed network connection]")
            net_ErrClosed = false.
Proof.
  apply (proj1 aggregated_error_opaque [closed_twice 1; closed_twice 2]).
  - simpl. lia.
  - reflexivity.
Defined.

(** ** [BridgeStreams] *)

Lemma BridgeStreams_switch_None errs :
  BridgeStreams_switch errs = None ↔ errs = [].
Proof. destruct errs as [|e1 [|e2 errs]]; split; done. Qed.

Lemma BridgeStreams_rets a b :
  omap id (ret <$> BridgeStreams_tasks a b) =
  omap id [copyStream a b; copyStream b a; closeAfterDone_switch (omap Close [a; b])].
Proof.
  unfold BridgeStreams_tasks, closeAfterDone. cbn [fmap list_fmap ret].
  by rewrite close_loop_spec.
Qed.

Lemma Wait_errs_single order rets e :
  rungroup.complete order (length rets) → omap id rets = [e] →
  rungroup.Wait_errs order rets = [e].
Proof.
  intros Hc He. pose proof (collect_complete _ _ Hc) as Hp.
  rewrite He in Hp. by apply Permutation_singleton_r in Hp.
Qed.

(** X4.  Once its three goroutines have finished, [BridgeStreams] returns
    nil exactly when both copy directions ended with a benign closure and
    both streams closed without error. *)
Theorem BridgeStreams_nil_iff order a b :
  rungroup.complete order 3 →
  BridgeStreams order a b = None ↔
    benign (io_Copy a b) = true ∧ benign (io_Copy b a) = true ∧
    Close a = None ∧ Close b = None.
Proof.
  intros Hc. unfold BridgeStreams. rewrite BridgeStreams_switch_None.
  pose proof (collect_complete order (ret <$> BridgeStreams_tasks a b) Hc) as Hp.
  rewrite BridgeStreams_rets in Hp. unfold rungroup.Wait_errs.
  rewrite <- !copyStream_switch_None. fold (copyStream a b) (copyStream b a).
  split.
  - intros Hnil. rewrite Hnil in Hp. apply Permutation_nil_l in Hp.
    symmetry in Hp. apply omap_id_nil in Hp.
    apply Forall_cons_1 in Hp as [Hab Hp].
    apply Forall_cons_1 in Hp as [Hba Hp].
    apply Forall_cons_1 in Hp as [Hcl _].
    apply closeAfterDone_switch_None, omap_Close_nil in Hcl.
    apply Forall_cons_1 in Hcl as [Ha Hcl].
    apply Forall_cons_1 in Hcl as [Hb _]. done.
  - intros (Hab & Hba & Ha & Hb).
    assert (omap id [copyStream a b; copyStream b a;
                     closeAfterDone_switch (omap Close [a; b])] = []) as Hrets.
    { rewrite Hab, Hba. cbn [omap list_omap]. by rewrite Ha, Hb. }
    rewrite Hrets in Hp. by apply Permutation_nil_r in Hp.
Qed.

Lemma BridgeStreams_nil_iff_witness :
  BridgeStreams [1; 2; 0] closed_conn finished_conn = None.
Proof.
  apply BridgeStreams_nil_iff.
  - unfold rungroup.complete. simpl. solve_Permutation.
  - split_and!; reflexivity.
Defined.

(** X5.  When one goroutine alone returned an error, [BridgeStreams]
    returns that very error: an unexpected copy error wrapped by
    [copyStream], so that [errors.Is] still finds it; and the error of a
    failed [Close] as it is, unwrapped and unfiltered, also when it is
    [net.ErrClosed], which from [io.Copy] would have been dropped. *)
Theorem BridgeStreams_single_error order a b (err : error) :
  rungroup.complete order 3 →
  (io_Copy a b = Some err → benign (Some err) = false →
   benign (io_Copy b a) = true → Close a = None → Close b = None →
   BridgeStreams order a b = Some (fmt_Errorf_w "io.Copy failed: " err "")) ∧
  (benign (io_Copy a b) = true → benign (io_Copy b a) = true →
   Close a = Some err → Close b = None →
   BridgeStreams order a b = Some err).
Proof.
  intros Hc. unfold BridgeStreams. split.
  - intros Hab Hb Hba Ha Hcb.
    rewrite (Wait_errs_single _ _ (fmt_Errorf_w "io.Copy failed: " err "")); [done..|].
    rewrite BridgeStreams_rets. unfold copyStream. rewrite Hab.
    rewrite (copyStream_switch_Some _ err) by done.
    apply copyStream_switch_None in Hba. rewrite Hba.
    cbn [omap list_omap]. by rewrite Ha, Hcb.
  - intros Hab Hba Ha Hcb.
    rewrite (Wait_errs_single _ _ err); [done..|].
    rewrite BridgeStreams_rets. unfold copyStream.
    apply copyStream_switch_None in Hab, Hba. rewrite Hab, Hba.
    cbn [omap list_omap]. by rewrite Ha, Hcb.
Qed.

Lemma BridgeStreams_single_error_witness :
  BridgeStreams [2; 1; 0] finished_conn reset_conn =
    Some (fmt_Errorf_w "io.Copy failed: " (Opaque "connection reset by peer") "") ∧
  BridgeStreams [2; 1; 0] (closed_twice 1) finished_conn = Some (Sentinel net_ErrClosed).
Proof.
  assert (rungroup.complete [2; 1; 0] 3) as Hc.
  { unfold rungroup.complete. simpl. solve_Permutation. }
  split.
  - apply (proj1 (BridgeStreams_single_error [2; 1; 0] finished_conn reset_conn
                    (Opaque "connection reset by peer") Hc)); reflexivity.
  - apply (proj2 (BridgeStreams_single_error [2; 1; 0] (closed_twice 1) finished_conn
                    (Sentinel net_ErrClosed) Hc)); reflexivity.
Defined.

(** ** [handleListener] *)

Lemma accept_loop_shape toAddr l (script : list (Stream + error)) :
  let run := accept_loop toAddr l script in
  ((∃ r, loop_end run = Returns r) ↔ ∃ err, inr err ∈ script) ∧
  (loop_end run = Blocks ↔ ∀ err, inr err ∉ script) ∧
  (∀ msg, loop_end run ≠ Panics msg) ∧
  accept_calls (loop_events run) = replicate (S (length (loop_dispatched run))) l ∧
  dispatches (loop_events run) = sid <$> loop_dispatched run ∧
  (inl <$> loop_dispatched run) `prefix_of` script.
Proof.
  induction script as [|[from|err] rest IH]; cbn zeta.
  - cbn [accept_loop loop_end loop_events loop_dispatched].
    split_and!; try done.
    + split; [by intros [r ?]|]. by intros [err ?%elem_of_nil].
    + split; [|done]. intros _ err. apply not_elem_of_nil.
  - cbn zeta in IH. destruct IH as (IH1 & IH2 & IH3 & IH4 & IH5 & IH6).
    cbn [accept_loop loop_end loop_events loop_dispatched].
    split_and!.
    + rewrite IH1. split; intros [e He]; exists e.
      * by apply list_elem_of_further.
      * by apply elem_of_cons in He as [?|?].
    + rewrite IH2. split; intros H e.
      * intros [?|?]%elem_of_cons; [done|]. by apply (H e).
      * intros ?. apply (H e). by apply list_elem_of_further.
    + done.
    + unfold accept_calls in *. cbn [omap list_omap length replicate].
      f_equal. exact IH4.
    + unfold dispatches in *. cbn [omap list_omap]. rewrite fmap_cons.
      f_equal. exact IH5.
    + rewrite fmap_cons. by apply prefix_cons.
  - cbn [accept_loop loop_end loop_events loop_dispatched].
    split_and!; try done.
    + split; [|by destruct (errors_Is err net_ErrClosed); eauto].
      intros _. exists err. apply list_elem_of_here.
    + split; [by destruct (errors_Is err net_ErrClosed)|].
      intros H. exfalso. apply (H err), list_elem_of_here.
    + by destruct (errors_Is err net_ErrClosed).
    + apply prefix_nil.
Qed.

(** X6.  With a listener that is not nil, [handleListener] returns exactly
    when some [Accept] of the listener fails, and otherwise stays in its
    loop.  It calls [Accept] once more than it dispatches handlers,
    dispatches them for the connections [Accept] returned, in order, and
    those are the results of [Accept] up to the first error: nothing after
    it is accepted.  With a nil listener it panics at its first [Accept],
    having dispatched nothing. *)
Theorem handleListener_returns_iff toAddr (l : Listener) :
  let run := handleListener toAddr (Some l) in
  ((∃ r, loop_end run = Returns r) ↔ ∃ err, inr err ∈ accepts l) ∧
  (loop_end run = Blocks ↔ ∀ err, inr err ∉ accepts l) ∧
  accept_calls (loop_events run) =
    replicate (S (length (loop_dispatched run))) (lid l) ∧
  dispatches (loop_events run) = sid <$> loop_dispatched run ∧
  (inl <$> loop_dispatched run) `prefix_of` accepts l ∧
  (∃ msg, loop_end (handleListener toAddr None) = Panics msg) ∧
  loop_events (handleListener toAddr None) = [] ∧
  loop_dispatched (handleListener toAddr None) = [].
Proof.
  destruct (accept_loop_shape toAddr (lid l) (accepts l))
    as (H1 & H2 & _ & H4 & H5 & H6).
  cbn zeta. cbn [handleListener loop_end loop_events loop_dispatched].
  split_and!; try done. eauto.
Qed.

Lemma handleListener_returns_iff_witness :
  ∃ r, loop_end (handleListener "[::1]:80" (Some (failed_listener None))) = Returns r.
Proof.
  destruct (handleListener_returns_iff "[::1]:80" (failed_listener None))
    as (H & _).
  apply H. exists (Opaque "too many open files").
  apply list_elem_of_further, list_elem_of_here.
Defined.

Lemma accept_loop_error toAddr l (script : list (Stream + error)) (e : error) :
  loop_end (accept_loop toAddr l script) = Returns (Some e) →
  ∃ err, inr err ∈ script ∧ errors_Is err net_ErrClosed = false ∧
         e = fmt_Errorf_w "failed to accept new connection: " err "".
Proof.
  induction script as [|[from|err] rest IH];
    cbn [accept_loop loop_end]; [done| |].
  - intros H. destruct (IH H) as (err & Hin & Hrest). exists err.
    split; [by apply list_elem_of_further|done].
  - destruct (errors_Is err net_ErrClosed) eqn:Hc; [done|].
    intros [= <-]. exists err. split; [apply list_elem_of_here|done].
Qed.

(** X7.  An error returned by [handleListener] is the error of a failed
    [Accept], wrapped with [%w]: [errors.Is] answers for it as for that
    error, its text is that error's after "failed to accept new connection:
    ", and it is never [net.ErrClosed]. *)
Theorem handleListener_error_identity toAddr (l : Listener) (e : error) :
  loop_end (handleListener toAddr (Some l)) = Returns (Some e) →
  ∃ err, inr err ∈ accepts l ∧
    Error e = "failed to accept new connection: " +:+ Error err ∧
    (∀ target, errors_Is e target = errors_Is err target) ∧
    errors_Is e net_ErrClosed = false.
Proof.
  intros H. apply accept_loop_error in H as (err & Hin & Hc & ->).
  exists err. split_and!; try done.
  unfold fmt_Errorf_w. cbn [Error]. by rewrite append_empty_r.
Qed.

Lemma handleListener_error_identity_witness :
  ∃ err, inr err ∈ accepts (failed_listener None) ∧
    Error (fmt_Errorf_w "failed to accept new connection: "
             (Opaque "too many open files") "") =
      "failed to accept new connection: " +:+ Error err ∧
    (∀ target, errors_Is (fmt_Errorf_w "failed to accept new connection: "
                            (Opaque "too many open files") "") target =
               errors_Is err target) ∧
    errors_Is (fmt_Errorf_w "failed to accept new connection: "
                 (Opaque "too many open files") "") net_ErrClosed = false.
Proof.
  apply (handleListener_error_identity "[::1]:80" (failed_listener None)).
  reflexivity.
Defined.

(** ** [bridgeStreams] and [handleConn] *)

(** X8.  The errors [bridgeStreams] reports to the logger are the non-nil
    results of its two copies and two closes that are not [net.ErrClosed],
    each once; so it logs nothing that is [net.ErrClosed]. *)
Theorem bridgeStreams_logged to from :
  logged (concat (events <$> bridgeStreams_tasks to from)) =
    filter (λ e, errors_Is e net_ErrClosed = false)
           (omap id [io_Copy to from; io_Copy from to; Close to; Close from]) ∧
  ∀ e, e ∈ logged (concat (events <$> bridgeStreams_tasks to from)) →
       errors_Is e net_ErrClosed = false.
Proof.
  assert (logged (concat (events <$> bridgeStreams_tasks to from)) =
    filter (λ e, errors_Is e net_ErrClosed = false)
           (omap id [io_Copy to from; io_Copy from to; Close to; Close from])) as Heq.
  { unfold bridgeStreams_tasks, bridge_copier, bridge_closer.
    cbn [fmap list_fmap events concat app].
    destruct (io_Copy to from) as [e1|], (io_Copy from to) as [e2|],
             (Close to) as [e3|], (Close from) as [e4|];
      cbn [omap list_omap id];
      repeat match goal with
             | |- context [errors_Is ?e net_ErrClosed] =>
               let H := fresh in destruct (errors_Is e net_ErrClosed) eqn:H
             end;
      cbn [negb app]; rewrite ?filter_cons, ?filter_nil;
      repeat match goal with
             | H : errors_Is ?e net_ErrClosed = _ |- _ => rewrite ?H; clear H
             end;
      reflexivity. }
  split; [exact Heq|].
  intros e. rewrite Heq. by intros [? _]%list_elem_of_filter.
Qed.

Lemma bridgeStreams_logged_witness :
  errors_Is (Opaque "bad file descriptor") net_ErrClosed = false.
Proof.
  apply (proj2 (bridgeStreams_logged (failing_closer 1 "bad file descriptor")
                  closed_conn)).
  vm_compute. apply list_elem_of_here.
Defined.

Lemma closes_bridge to from :
  closes (concat (events <$> bridgeStreams_tasks to from)) = [sid to; sid from].
Proof.
  unfold bridgeStreams_tasks, bridge_copier, bridge_closer. simpl.
  destruct (io_Copy to from) as [e1|], (io_Copy from to) as [e2|],
           (Close to) as [e3|], (Close from) as [e4|]; simpl;
    repeat match goal with |- context [errors_Is ?e ?t] => destruct (errors_Is e t) end;
    reflexivity.
Qed.

Lemma handleConn_closes env from dstAddr :
  closes (conn_all_events (handleConn env from dstAddr)) =
  handler_sockets env dstAddr from.
Proof.
  unfold conn_all_events, handler_sockets.
  destruct (dialer env "tcp6" dstAddr) as [to|err] eqn:Hd.
  - rewrite (handleConn_dialed _ _ _ to Hd). cbn [conn_events conn_bridge].
    unfold closes. rewrite omap_app.
    fold (closes (concat (events <$> bridgeStreams_tasks to from))).
    by rewrite closes_bridge.
  - rewrite (handleConn_dial_failed _ _ _ err Hd). cbn [conn_events conn_bridge].
    by destruct (Close from).
Qed.

(** X9.  Whatever the dial, the copies and the closes do, a handler and the
    goroutines of its bridge call [Close] exactly once on the accepted
    connection and, when the dial succeeded, exactly once on the dialed
    connection; they close nothing else. *)
Theorem handleConn_closes_once env from dstAddr :
  closes (conn_all_events (handleConn env from dstAddr)) =
  match dialer env "tcp6" dstAddr with
  | inl to => [sid to; sid from]
  | inr _ => [sid from]
  end.
Proof. apply handleConn_closes. Qed.

(** ** [Run] *)

Lemma omap_concat {A B} (f : A → option B) (ls : list (list A)) :
  omap f (concat ls) = concat ((λ l : list A, omap f l) <$> ls).
Proof.
  induction ls as [|l ls IH]; [done|].
  cbn [concat]. rewrite omap_app, IH. done.
Qed.

Lemma omap_accept_loop_events {B} (f : event → option B) toAddr l script :
  (∀ n, f (EvAccept n) = None) → (∀ n a o, f (EvGoHandler n a o) = None) →
  omap f (loop_events (accept_loop toAddr l script)) = [].
Proof.
  intros Ha Hg. induction script as [|[from|err] rest IH];
    cbn [accept_loop loop_events omap list_omap]; rewrite ?Ha, ?Hg; [done| |done].
  exact IH.
Qed.

(** Everything a started service does. *)
Lemma Run_started_events env toAddr (l : Listener) :
  environ env !! ToAddrEnvName = Some toAddr → systemd env = ([Some l], None) →
  run_all_events (Run env) =
    [EvLookupEnv ToAddrEnvName; EvListeners]
    ++ loop_events (handleListener toAddr (Some l))
    ++ from_option events []
         (closer_run (loop_end (handleListener toAddr (Some l))) (Some l))
    ++ concat ((λ from, conn_all_events (handleConn env from toAddr))
                 <$> loop_dispatched (handleListener toAddr (Some l))).
Proof.
  intros Henv Hsys.
  destruct (Run_started env toAddr l Henv Hsys) as (He & Hl & Hc & Hh & _).
  unfold run_all_events. rewrite He, Hl, Hc, Hh. cbn [from_option].
  by rewrite <- list_fmap_compose.
Qed.

(** X10.  When a service got past its start-up checks and its accept loop
    has returned, so that [Run] returns, it has called [Close] once on its
    listener and, for each connection it accepted, once on that connection
    and once on the connection dialed for it if the dial succeeded; it has
    closed nothing else. *)
Theorem Run_closes env toAddr (l : Listener) (r_loop : option error) :
  environ env !! ToAddrEnvName = Some toAddr → systemd env = ([Some l], None) →
  loop_end (handleListener toAddr (Some l)) = Returns r_loop →
  (∃ r, run_end (Run env) = Returns r) ∧
  closes (run_all_events (Run env)) =
    lid l :: (loop_dispatched (handleListener toAddr (Some l))
                ≫= handler_sockets env toAddr).
Proof.
  intros Henv Hsys Hloop. split.
  { destruct (Run_started env toAddr l Henv Hsys) as (_ & _ & _ & _ & ->).
    rewrite Hloop. eauto. }
  rewrite (Run_started_events env toAddr l Henv Hsys). rewrite Hloop.
  unfold closes. rewrite !omap_app.
  unfold handleListener at 1. rewrite omap_accept_loop_events by done.
  cbn [closer_run from_option listener_closer events omap list_omap app]. f_equal.
  rewrite omap_concat, <- list_fmap_compose.
  induction (loop_dispatched (handleListener toAddr (Some l))) as [|from conns IH]; [done|].
  rewrite fmap_cons. cbn [concat mbind list_bind]. rewrite IH. f_equal.
  apply handleConn_closes.
Qed.

Lemma Run_closes_witness :
  closes (run_all_events (Run (dialing_env ([busy_listener], None) [0; 1; 2; 3]))) =
  [5; 9; 3; 9; 4].
Proof.
  exact (proj2 (Run_closes (dialing_env ([busy_listener], None) [0; 1; 2; 3])
                  "[::1]:80" busy_listener None eq_refl eq_refl eq_refl)).
Defined.

(** X11.  A service that got past its start-up checks dials once for each
    connection it accepted, every time with network "tcp6" and with the
    value of the destination variable as it was found, unchecked; there is
    no other dial. *)
Theorem Run_dials env toAddr (l : Listener) :
  environ env !! ToAddrEnvName = Some toAddr → systemd env = ([Some l], None) →
  dials (run_all_events (Run env)) =
    replicate (length (loop_dispatched (handleListener toAddr (Some l)))) ("tcp6", toAddr).
Proof.
  intros Henv Hsys. rewrite (Run_started_events env toAddr l Henv Hsys).
  unfold dials. rewrite !omap_app.
  unfold handleListener at 1. rewrite omap_accept_loop_events by done.
  assert (omap (λ ev, match ev with
                      | EvDial network address => Some (network, address)
                      | _ => None
                      end)
            (from_option events []
               (closer_run (loop_end (handleListener toAddr (Some l))) (Some l))) = [])
    as ->.
  { by destruct (loop_end (handleListener toAddr (Some l))). }
  cbn [omap list_omap app].
  rewrite omap_concat, <- list_fmap_compose.
  induction (loop_dispatched (handleListener toAddr (Some l))) as [|from conns IH]; [done|].
  rewrite fmap_cons. cbn [concat length replicate]. rewrite IH.
  cbn [compose]. fold (dials (conn_all_events (handleConn env from toAddr))).
  by rewrite handleConn_dials.
Qed.

Lemma Run_dials_witness :
  dials (run_all_events (Run (dialing_env ([busy_listener], None) [0; 1; 2; 3]))) =
  [("tcp6", "[::1]:80"); ("tcp6", "[::1]:80")].
Proof.
  exact (Run_dials (dialing_env ([busy_listener], None) [0; 1; 2; 3]) "[::1]:80"
           busy_listener eq_refl eq_refl).
Defined.

(** X12.  When a start-up check fails, [Run] has looked up the variable
    and at most asked for the sockets: it accepts, dials, logs and closes
    nothing.  In particular the sockets it was passed stay open. *)
Theorem Run_startup_failure_inert env :
  environ env !! ToAddrEnvName = None ∨ (systemd env).2 ≠ None ∨
  length (systemd env).1 ≠ 1 →
  (run_all_events (Run env) = [EvLookupEnv ToAddrEnvName] ∨
   run_all_events (Run env) = [EvLookupEnv ToAddrEnvName; EvListeners]) ∧
  closes (run_all_events (Run env)) = [] ∧
  dials (run_all_events (Run env)) = [] ∧
  accept_calls (run_all_events (Run env)) = [] ∧
  logged (run_all_events (Run env)) = [].
Proof.
  intros Hcases.
  destruct (environ env !! ToAddrEnvName) as [toAddr|] eqn:Henv.
  - destruct (systemd env).2 as [err|] eqn:Herr.
    + rewrite (Run_listeners_failed env toAddr err Henv Herr).
      split_and!; [by right|done..].
    + destruct Hcases as [?|[?|Hlen]]; [done..|].
      rewrite (Run_socket_amount env toAddr Henv Herr Hlen).
      split_and!; [by right|done..].
  - rewrite (Run_env_missing env Henv). split_and!; [by left|done..].
Qed.

Lemma Run_startup_failure_inert_witness :
  closes (run_all_events (Run misconfigured)) = [] ∧
  closes (run_all_events
            (Run (env_of ([closed_listener None; closed_listener None], None) []))) = [].
Proof.
  split.
  - apply (Run_startup_failure_inert misconfigured). by left.
  - apply (Run_startup_failure_inert
             (env_of ([closed_listener None; closed_listener None], None) [])).
    right. right. simpl. lia.
Defined.

(** X13.  When the accept loop alone fails (an [Accept] error that is not
    [net.ErrClosed], the listener closes cleanly), the error [Run] returns
    wraps the [Accept] error twice with [%w]: its text is "listening group
    failed: failed to accept new connection: " and the text of that error,
    and [errors.Is] answers for it as for that error. *)
Theorem Run_accept_error_identity env toAddr (l : Listener)
    (conns : list Stream) (err : error) (rest : list (Stream + error)) :
  environ env !! ToAddrEnvName = Some toAddr → systemd env = ([Some l], None) →
  accepts l = (inl <$> conns) ++ inr err :: rest →
  errors_Is err net_ErrClosed = false → lclose l = None →
  rungroup.complete (service_order env) (2 + length conns) →
  ∃ e, run_end (Run env) = Returns (Some e) ∧
    Error e = "listening group failed: failed to accept new connection: "
              +:+ Error err ∧
    ∀ target, errors_Is e target = errors_Is err target.
Proof.
  intros Henv Hsys Hacc Hnc Hcl Hc.
  destruct (Run_started env toAddr l Henv Hsys) as (_ & _ & _ & _ & Hend).
  unfold handleListener in Hend. rewrite Hacc, accept_loop_app in Hend.
  cbn [accept_loop loop_end loop_dispatched] in Hend.
  rewrite Hnc, app_nil_r in Hend.
  set (e := fmt_Errorf_w "failed to accept new connection: " err "") in *.
  exists (fmt_Errorf_w "listening group failed: " e "").
  split_and!.
  - rewrite Hend. unfold Run_finish.
    rewrite (Wait_complete_single _ _ e); [done| |].
    + cbn [length]. by rewrite length_replicate.
    + unfold listener_closer. cbn [ret]. rewrite Hcl.
      change (Some e :: None :: replicate (length conns) None)
        with ([Some e; None] ++ replicate (length conns) None).
      by rewrite omap_app, omap_id_replicate_None.
  - unfold e, fmt_Errorf_w. cbn [Error]. rewrite !append_empty_r. symmetry.
    exact (append_assoc "listening group failed: "
             "failed to accept new connection: " (Error err)).
  - done.
Qed.

Lemma Run_accept_error_identity_witness :
  ∃ e, run_end (Run (env_of ([failed_listener None], None) [2; 0; 1])) = Returns (Some e) ∧
    Error e = "listening group failed: failed to accept new connection: "
              +:+ Error (Opaque "too many open files") ∧
    ∀ target, errors_Is e target = errors_Is (Opaque "too many open files") target.
Proof.
  apply (Run_accept_error_identity (env_of ([failed_listener None], None) [2; 0; 1])
           "[::1]:80" (failed_listener None) [finished_conn] _ []);
    try reflexivity.
  unfold rungroup.complete. simpl. solve_Permutation.
Defined.

(** X14.  [Run] does not check the socket it was passed for nil: it panics
    exactly when it got past its start-up checks with a nil listener, in
    the first [Accept] of the accept loop.  With a listener that is not nil
    it does not return exactly when no [Accept] of the listener ever fails;
    when a start-up check fails it returns at once. *)
Theorem Run_panics_iff env :
  ((∃ msg, run_end (Run env) = Panics msg) ↔
   ∃ toAddr, environ env !! ToAddrEnvName = Some toAddr ∧
             systemd env = ([None], None)) ∧
  (run_end (Run env) = Blocks ↔
   ∃ toAddr (l : Listener),
     environ env !! ToAddrEnvName = Some toAddr ∧
     systemd env = ([Some l], None) ∧
     ∀ err, inr err ∉ accepts l).
Proof.
  destruct (environ env !! ToAddrEnvName) as [toAddr|] eqn:Henv.
  - destruct (systemd env) as [listeners [err|]] eqn:Hsys.
    + rewrite (Run_listeners_failed env toAddr err) by (by rewrite ?Hsys).
      split; (split; [by try intros [? ?]|]).
      * by intros (? & _ & [=]).
      * by intros (? & ? & _ & [=] & _).
    + destruct (decide (length listeners = 1)) as [Hlen|Hlen].
      * destruct listeners as [|l [|l' listeners]]; [done| |done].
        destruct l as [l|].
        -- destruct (Run_started env toAddr l Henv Hsys) as (_ & _ & _ & _ & ->).
           destruct (accept_loop_shape toAddr (lid l) (accepts l))
             as (_ & Hblocks & Hpanics & _).
           change (accept_loop toAddr (lid l) (accepts l))
             with (handleListener toAddr (Some l)) in Hblocks, Hpanics.
           destruct (loop_end (handleListener toAddr (Some l))) as [r| |msg] eqn:Hloop.
           ++ split; (split; [by try intros [? ?]|]).
              ** by intros (? & _ & [=]).
              ** intros (toAddr' & l' & _ & [= <-] & Hnone).
                 by apply Hblocks in Hnone.
           ++ split; split.
              ** by intros [? ?].
              ** by intros (? & _ & [=]).
              ** intros _. exists toAddr, l. split_and!; [done..|]. by apply Hblocks.
              ** done.
           ++ by destruct (Hpanics msg).
        -- rewrite (Run_nil_listener env toAddr Henv Hsys). cbn [run_end].
           split; split.
           ** intros _. by exists toAddr.
           ** eauto.
           ** done.
           ** by intros (? & ? & _ & [=] & _).
      * rewrite (Run_socket_amount env toAddr) by (by rewrite ?Hsys).
        split; (split; [by try intros [? ?]|]).
        -- intros (? & _ & [= ->]). by destruct Hlen.
        -- intros (? & l & _ & [= ->] & _). by destruct Hlen.
  - rewrite (Run_env_missing env Henv).
    split; (split; [by try intros [? ?]|]).
    + by intros (? & [=] & _).
    + by intros (? & ? & [=] & _).
Qed.

Lemma Run_panics_iff_witness :
  (∃ msg, run_end (Run {| environ := {[ ToAddrEnvName := "[::1]:80" ]};
                          systemd := ([None], None);
                          dialer := λ _ _, inr (Opaque "connection refused");
                          service_order := [];
                          bridge_order := λ _, [] |}) = Panics msg) ∧
  run_end (Run (env_of ([listener_of [inl finished_conn] None], None) [])) = Blocks.
Proof.
  split.
  - apply (proj1 (Run_panics_iff _)). by exists "[::1]:80".
  - apply (proj2 (Run_panics_iff
                    (env_of ([listener_of [inl finished_conn] None], None) []))).
    exists "[::1]:80", (listener_of [inl finished_conn] None).
    split_and!; [reflexivity..|].
    intros err Hin. apply list_elem_of_singleton in Hin. discriminate Hin.
Defined.
